(** * Practical-13: the NDJSON streaming endpoint [GET /stream]

    A shallow embedding of the streaming part of [src/Practical-13.js]:
    [buildProblem], [delay], [produceNdjsonItems], the abort-on-close
    middleware and the [/stream] handler with its [endStream] closure,
    its backpressure wait and its [catch] block.

    The handler is event driven.  Between two suspension points
    ([await delay(...)] and the [await new Promise(...)] of the
    backpressure wait) the JavaScript runs to completion, so a session is
    modelled as a state record and a total function [step] from an
    environment event (a timer firing, ['drain'], ['close'], ['finish'])
    to the next state.  Event callbacks only settle a promise; the code
    after the [await] runs afterwards, in [resume].

    Left out: the wrapper of lines 32-53 around [res.end], which only sets
    the timing headers before it calls the original [end], and the other
    routes. *)

From Stdlib Require Import List String Arith Bool Lia PeanoNat DecimalString.
Import ListNotations.
Local Open Scope string_scope.
Local Open Scope list_scope.

(** ** JavaScript values used by the handler *)

Record js_error := mkError { name : string; message : string }.

(** [new Error('aborted')], line 161: the name stays ['Error']. *)
Definition plainAborted : js_error := mkError "Error" "aborted".

(** [new Error('aborted')] with [err.name = 'AbortError'], line 164. *)
Definition abortError : js_error := mkError "AbortError" "aborted".

(** JavaScript truthiness of an optional string: [undefined] and the empty
    string are falsy. *)
Definition truthy (s : option string) : bool :=
  match s with
  | Some EmptyString => false
  | Some _ => true
  | None => false
  end.

(** [a || b] on optional strings. *)
Definition js_or (a b : option string) : option string :=
  if truthy a then a else b.

(** The record produced at line 175. *)
Record item := mkItem { seq : nat; id : string; ts : string; msg : string }.

(** The problem document of [buildProblem]; a field that is [None] is a key
    deleted at line 19. *)
Record problem := mkProblem {
  p_type : string;
  p_title : option string;
  p_status : nat;
  p_detail : option string;
  p_instance : option string
}.

(** [buildProblem({ type = 'about:blank', title, status = 500, detail,
    instance })], lines 17-21 ([extra] is left at its default [{}] by the
    stream handler). *)
Definition buildProblem (type title : option string) (status : option nat)
    (detail instance : option string) : problem :=
  let type' := match type with Some t => t | None => "about:blank" end in
  let status' := match status with Some s => s | None => 500 end in
  {| p_type := type';
     p_title := js_or title
                  (if Nat.eqb status' 500 then Some "Internal Server Error" else None);
     p_status := status';
     p_detail := detail;
     p_instance := instance |}.

(** ** The cancellation signal

    [req.signal] is the runtime's [AbortSignal], an event target: [abort()]
    sets [aborted] and dispatches ['abort'] to the listeners registered at
    that moment; on an aborted signal it does nothing.  Listeners are
    identified by a number (the iteration whose [delay] registered them). *)
Module AbortSignal.

Record t := mk { aborted : bool; listeners : list nat }.

(** [new AbortController().signal] *)
Definition fresh : t := mk false [].

(** [ac.abort()]: the new signal and the callbacks dispatched, in order. *)
Definition abort (s : t) : t * list nat :=
  if aborted s then (s, []) else (mk true (listeners s), listeners s).

(** [signal.addEventListener('abort', cb)]: a listener already present is
    not added twice; nothing is dispatched. *)
Definition addEventListener (cb : nat) (s : t) : t :=
  if existsb (Nat.eqb cb) (listeners s) then s
  else mk (aborted s) (listeners s ++ [cb]).

(** [signal.removeEventListener('abort', cb)] *)
Definition removeEventListener (cb : nat) (s : t) : t :=
  mk (aborted s) (filter (fun c => negb (Nat.eqb cb c)) (listeners s)).

(** A client of the signal. *)
Inductive op := Abort | Add (cb : nat) | Remove (cb : nat).

Definition apply (o : op) (s : t) : t * list nat :=
  match o with
  | Abort => abort s
  | Add cb => (addEventListener cb s, [])
  | Remove cb => (removeEventListener cb s, [])
  end.

(** Run a sequence of operations; the second component lists every
    callback invocation, in order. *)
Fixpoint run (ops : list op) (s : t) : t * list nat :=
  match ops with
  | [] => (s, [])
  | o :: ops' =>
      let '(s1, f1) := apply o s in
      let '(s2, f2) := run ops' s1 in
      (s2, f1 ++ f2)
  end.

End AbortSignal.

(** ** The response object *)

Inductive ctype := Ndjson | ProblemJson.

(** What is handed to the transport: [RecordLine it] stands for
    [JSON.stringify(it) + '\n'], [ProblemDoc p] for [JSON.stringify(p)]. *)
Inductive chunk := RecordLine (it : item) | ProblemDoc (p : problem).

Record response := mkResponse {
  statusCode : nat;
  contentType : ctype;
  headersSent : bool;
  (** status and content type as they went out with the first byte *)
  wireHead : option (nat * ctype);
  body : list chunk;
  writableEnded : bool;
  (** number of calls of [res.end] *)
  endCalls : nat;
  (** the [once('drain', onDrain)] and [once('close', onClose)] listeners *)
  drainL : bool;
  closeL : bool;
  resClosed : bool
}.

Definition flush_head (r : response) : response :=
  if headersSent r then r
  else mkResponse (statusCode r) (contentType r) true
         (Some (statusCode r, contentType r)) (body r) (writableEnded r)
         (endCalls r) (drainL r) (closeL r) (resClosed r).

(** A write that the transport takes (returning [true] or [false]): headers
    go out with the first one, the chunk is appended. *)
Definition res_commit (c : chunk) (r : response) : response :=
  let r1 := flush_head r in
  mkResponse (statusCode r1) (contentType r1) (headersSent r1) (wireHead r1)
    (body r1 ++ [c]) (writableEnded r1) (endCalls r1) (drainL r1) (closeL r1)
    (resClosed r1).

(** [res.end(data)]: on a response already ended nothing happens. *)
Definition res_end (data : option chunk) (r : response) : response :=
  if writableEnded r then
    mkResponse (statusCode r) (contentType r) (headersSent r) (wireHead r)
      (body r) true (S (endCalls r)) (drainL r) (closeL r) (resClosed r)
  else
    let r1 := flush_head r in
    mkResponse (statusCode r1) (contentType r1) (headersSent r1) (wireHead r1)
      (body r1 ++ match data with Some c => [c] | None => [] end)
      true (S (endCalls r1)) (drainL r1) (closeL r1) (resClosed r1).

Definition set_statusCode (n : nat) (r : response) : response :=
  mkResponse n (contentType r) (headersSent r) (wireHead r) (body r)
    (writableEnded r) (endCalls r) (drainL r) (closeL r) (resClosed r).

Definition set_contentType (c : ctype) (r : response) : response :=
  mkResponse (statusCode r) c (headersSent r) (wireHead r) (body r)
    (writableEnded r) (endCalls r) (drainL r) (closeL r) (resClosed r).

Definition set_listeners (d c : bool) (r : response) : response :=
  mkResponse (statusCode r) (contentType r) (headersSent r) (wireHead r)
    (body r) (writableEnded r) (endCalls r) d c (resClosed r).

Definition set_resClosed (r : response) : response :=
  mkResponse (statusCode r) (contentType r) (headersSent r) (wireHead r)
    (body r) (writableEnded r) (endCalls r) (drainL r) (closeL r) true.

(** The response as the handler finds it, after lines 181-183. *)
Definition res0 : response :=
  mkResponse 200 Ndjson false None [] false 0 false false false.

(** The [seq] fields of the record lines of a body, in order. *)
Fixpoint record_seqs (b : list chunk) : list nat :=
  match b with
  | [] => []
  | RecordLine it :: b' => seq it :: record_seqs b'
  | ProblemDoc _ :: b' => record_seqs b'
  end.

Fixpoint problem_docs (b : list chunk) : list problem :=
  match b with
  | [] => []
  | RecordLine _ :: b' => problem_docs b'
  | ProblemDoc p :: b' => p :: problem_docs b'
  end.

(** ** The session *)

(** How the async function of lines 199-231 came to its end. *)
Inductive exit_path :=
| ExitExhausted            (* the generator ran to [i = count], line 217 *)
| ExitSignalBreak          (* [break] at line 172 or 174, then line 217 *)
| ExitLoopBreak            (* [break] at line 204, then line 217 *)
| ExitAbortError           (* [catch], lines 219-223 *)
| ExitFault (e : js_error) (* [catch], lines 224-229 *).

(** The terminal states of the specification. *)
Inductive outcome := COMPLETED | CANCELLED | FAILED.

Definition outcome_of (x : exit_path) : outcome :=
  match x with
  | ExitExhausted => COMPLETED
  | ExitSignalBreak | ExitLoopBreak | ExitAbortError => CANCELLED
  | ExitFault _ => FAILED
  end.

(** Where the async function is suspended. *)
Inductive task :=
| TDelay (i : nat)   (* in [await delay(...)] of iteration [i], line 173 *)
| TDrain (i : nat)   (* in the backpressure wait after writing item [i+1] *)
| TDone (x : exit_path).

(** A promise settled by a callback whose continuation has not run yet. *)
Inductive settlement := Resolved | Rejected (e : js_error).

Inductive log_entry :=
| LogClientDisconnected             (* line 78 *)
| LogClientClosed                   (* line 195 *)
| LogStreamAborted                  (* line 203 *)
| LogStoppedAbort                   (* line 220 *)
| LogStreamingError (e : js_error)  (* line 224 *).

(** What [res.write] does with a line. *)
Inductive write_outcome := Accepted | Saturated | WriteThrows (e : js_error).

(** The parts of the runtime the handler consults: [randomUUID()],
    [new Date().toISOString()], whether building or serialising the item of
    an iteration throws, and what [res.write] answers for it. *)
Record runtime := mkRuntime {
  uuid : nat -> string;
  now : nat -> string;
  construct_fault : nat -> option js_error;
  stringify_fault : nat -> option js_error;
  write_result : nat -> write_outcome
}.

Record session := mkSession {
  sig : AbortSignal.t;
  res : response;
  (** [ended] of line 186 *)
  ended : bool;
  (** the middleware's [onClose] is still registered on [req] (lines 81-82) *)
  mwClose : bool;
  reqClosed : bool;
  (** the pending [setTimeout] of [delay], with its duration *)
  timer : option nat;
  task_of : task;
  pending : option settlement;
  log : list log_entry;
  (** ghost: the [seq] of the item of every call of [res.write] *)
  writeCalls : list nat;
  (** ghost: [signal.aborted] at every call of [delay] *)
  delayCalls : list bool
}.

Definition with_sig (s : AbortSignal.t) (st : session) : session :=
  mkSession s (res st) (ended st) (mwClose st) (reqClosed st) (timer st)
    (task_of st) (pending st) (log st) (writeCalls st) (delayCalls st).

Definition with_res (r : response) (st : session) : session :=
  mkSession (sig st) r (ended st) (mwClose st) (reqClosed st) (timer st)
    (task_of st) (pending st) (log st) (writeCalls st) (delayCalls st).

Definition with_ended (b : bool) (st : session) : session :=
  mkSession (sig st) (res st) b (mwClose st) (reqClosed st) (timer st)
    (task_of st) (pending st) (log st) (writeCalls st) (delayCalls st).

Definition with_mwClose (b : bool) (st : session) : session :=
  mkSession (sig st) (res st) (ended st) b (reqClosed st) (timer st)
    (task_of st) (pending st) (log st) (writeCalls st) (delayCalls st).

Definition with_reqClosed (b : bool) (st : session) : session :=
  mkSession (sig st) (res st) (ended st) (mwClose st) b (timer st)
    (task_of st) (pending st) (log st) (writeCalls st) (delayCalls st).

Definition with_timer (t : option nat) (st : session) : session :=
  mkSession (sig st) (res st) (ended st) (mwClose st) (reqClosed st) t
    (task_of st) (pending st) (log st) (writeCalls st) (delayCalls st).

Definition with_task (t : task) (st : session) : session :=
  mkSession (sig st) (res st) (ended st) (mwClose st) (reqClosed st) (timer st)
    t (pending st) (log st) (writeCalls st) (delayCalls st).

Definition with_pending (p : option settlement) (st : session) : session :=
  mkSession (sig st) (res st) (ended st) (mwClose st) (reqClosed st) (timer st)
    (task_of st) p (log st) (writeCalls st) (delayCalls st).

Definition req_log (e : log_entry) (st : session) : session :=
  mkSession (sig st) (res st) (ended st) (mwClose st) (reqClosed st) (timer st)
    (task_of st) (pending st) (log st ++ [e]) (writeCalls st) (delayCalls st).

Definition note_write (n : nat) (st : session) : session :=
  mkSession (sig st) (res st) (ended st) (mwClose st) (reqClosed st) (timer st)
    (task_of st) (pending st) (log st) (writeCalls st ++ [n]) (delayCalls st).

Definition note_delay (b : bool) (st : session) : session :=
  mkSession (sig st) (res st) (ended st) (mwClose st) (reqClosed st) (timer st)
    (task_of st) (pending st) (log st) (writeCalls st) (delayCalls st ++ [b]).

Definition aborted (st : session) : bool := AbortSignal.aborted (sig st).

(** A promise settles once. *)
Definition settle (s : settlement) (st : session) : session :=
  match pending st with
  | None => with_pending (Some s) st
  | Some _ => st
  end.

(** ** [endStream], lines 187-191 *)
Definition endStream (st : session) : session :=
  if ended st then st
  else with_res (res_end None (res st)) (with_ended true st).

(** ** [delay], lines 160-168 *)

(** [cleanup()] of line 165 for the listener [cb]. *)
Definition cleanup (cb : nat) (st : session) : session :=
  with_sig (AbortSignal.removeEventListener cb (sig st)) (with_timer None st).

(** The timer callback of line 163. *)
Definition onTimeout (cb : nat) (st : session) : session :=
  settle Resolved (cleanup cb st).

(** [onAbort] of line 164. *)
Definition onAbort (cb : nat) (st : session) : session :=
  settle (Rejected abortError) (cleanup cb st).

(** The synchronous part of [delay(ms, signal)] called in iteration [cb]:
    either the throw of line 161, or the timer set and the listener
    registered (lines 163 and 166). *)
Inductive delay_result :=
| DelayThrew (e : js_error) (st : session)
| DelayPending (st : session).

Definition delay (ms cb : nat) (st : session) : delay_result :=
  let st1 := note_delay (aborted st) st in
  if aborted st1 then DelayThrew plainAborted st1
  else DelayPending (with_sig (AbortSignal.addEventListener cb (sig st1))
                       (with_timer (Some ms) st1)).

(** Some runtimes to run the handler on: one where nothing goes wrong, one
    whose transport is saturated by the first line, and two where building
    an item throws. *)
Definition boom : js_error := mkError "TypeError" "boom".

Definition steady : runtime :=
  mkRuntime (fun _ => "9b2e5f0c-1d3a-4c7e-8f21-6a0d4b7c9e11")
    (fun _ => "2025-01-01T00:00:00.000Z")
    (fun _ => None) (fun _ => None) (fun _ => Accepted).

Definition slow_client : runtime :=
  mkRuntime (uuid steady) (now steady) (fun _ => None) (fun _ => None)
    (fun i => if Nat.eqb i 0 then Saturated else Accepted).

Definition faulty_first : runtime :=
  mkRuntime (uuid steady) (now steady)
    (fun i => if Nat.eqb i 0 then Some boom else None) (fun _ => None)
    (fun _ => Accepted).

(** The errors that line 224 wrote to the log, in order. *)
Fixpoint error_entries (lg : list log_entry) : list js_error :=
  match lg with
  | [] => []
  | LogStreamingError e :: lg' => e :: error_entries lg'
  | _ :: lg' => error_entries lg'
  end.

(** A runtime whose transport throws, on the second line, an error that
    happens to be named [AbortError]. *)
Definition abort_named : js_error := mkError "AbortError" "socket gone".

Definition throws_abort_named : runtime :=
  mkRuntime (uuid steady) (now steady) (fun _ => None) (fun _ => None)
    (fun i => if Nat.eqb i 1 then WriteThrows abort_named else Accepted).

Definition faulty_second : runtime :=
  mkRuntime (uuid steady) (now steady)
    (fun i => if Nat.eqb i 1 then Some boom else None) (fun _ => None)
    (fun _ => Accepted).

(** * The rest of the service: problem documents for errors

    The central error handler (lines 128-158), [validateSchema] (lines
    88-106) with the [/order] route (lines 112-122), the origin check given
    to [cors] (line 58) and the parsing of the whitelist (lines 10-11); and
    from [src/Practical-13.1.js] its [problemJson] and its error handler.
    Strings are sequences of code units below 256. *)

(** One entry of [validate.errors]. *)
Record ajv_error := mkAjvError { instancePath : string; ajv_message : string }.

(** A problem document with the members of [extra] spread into it; the one
    caller that passes [extra] passes [{ errors }] (line 102). *)
Record problem_doc := mkDoc {
  core : problem;
  errors : option (list ajv_error)
}.

(** What the handler reads of the value given to [next(err)]. *)
Record app_error := mkAppError {
  err_name : option string;
  err_message : option string;
  err_status : option nat;
  is_syntax_error : bool;   (* [err instanceof SyntaxError] *)
  has_body : bool;          (* ['body' in err] *)
  err_problem : option problem_doc
}.

(** [err.status ? Number(err.status) : 500] (line 130) and
    [err.status || 500] (line 118 of the other file). *)
Definition status_of (err : app_error) : nat :=
  match err_status err with
  | Some (S n) => S n
  | _ => 500
  end.

(** [isJsonParseError], line 126. *)
Definition isJsonParseError (err : app_error) : bool :=
  is_syntax_error err && has_body err &&
  match err_status err with Some 400 => true | _ => false end.

(** What the handler does to the response: a status, a content type and a
    document; or, when the headers are gone already, only [res.end()]; or
    it throws, and what answers then is no code of this repository. *)
Inductive handler_outcome :=
| Replied (status : nat) (content_type : string) (doc : problem_doc)
| EndedOnly
| HandlerThrew.

Definition problem_json_type : string := "application/problem+json".

(** The status codes the response takes: sending with any other throws
    ([ERR_HTTP_INVALID_STATUS_CODE]). *)
Definition valid_status (n : nat) : bool := Nat.leb 100 n && Nat.leb n 999.

(** [res.status(status).type('application/problem+json').json(doc)]:
    [None] when it throws. *)
Definition send_problem (status : nat) (doc : problem_doc)
    : option handler_outcome :=
  if valid_status status then Some (Replied status problem_json_type doc)
  else None.

(** The document of line 154:
    [buildProblem({ status: 500, title: 'Internal Server Error' })]. *)
Definition fallback_doc : problem_doc :=
  mkDoc (buildProblem None (Some "Internal Server Error") (Some 500) None None)
    None.

(** The [try] block of the error handler, lines 129-147, on a response whose
    headers are not sent: [None] when sending throws. *)
Definition errorHandler_try (originalUrl : string) (err : app_error)
    : option handler_outcome :=
  let status := status_of err in
  if isJsonParseError err then
    send_problem 400
      (mkDoc (buildProblem (Some "https://example.com/probs/invalid-json")
                (Some "Malformed JSON") (Some 400) (err_message err)
                (Some originalUrl)) None)
  else if match err_message err with
          | Some m => String.eqb m "CORS origin not allowed"
          | None => false
          end then
    send_problem 403
      (mkDoc (buildProblem (Some "https://example.com/probs/cors")
                (Some "CORS origin not allowed") (Some 403)
                (Some "The requesting origin is not allowed by server CORS policy.")
                (Some originalUrl)) None)
  else
    match err_problem err with
    | Some p =>
        send_problem (match p_status (core p) with 0 => status | S n => S n end)
          p
    | None =>
        send_problem status
          (mkDoc (buildProblem None
                    (js_or (err_name err) (Some "Internal Server Error"))
                    (Some status)
                    (if Nat.leb 500 status then Some "Internal server error"
                     else err_message err)
                    (Some originalUrl)) None)
    end.

(** The error handler, lines 128-158.  With the headers already sent the
    first header call throws and the [catch] block ends the response (line
    155).  Otherwise the [try] block answers, unless its status is one the
    response does not take: then sending throws with nothing sent, and the
    [catch] block answers 500 with the document of line 154. *)
Definition errorHandler (headers_sent : bool) (originalUrl : string)
    (err : app_error) : handler_outcome :=
  if headers_sent then EndedOnly
  else
    match errorHandler_try originalUrl err with
    | Some answer => answer
    | None => Replied 500 problem_json_type fallback_doc
    end.

(** [validate(req.body)] with [validate.errors]. *)
Inductive validation := Valid | Invalid (errs : option (list ajv_error)).

(** [`${e.instancePath || '/'} ${e.message}`], line 93. *)
Definition describe_error (e : ajv_error) : string :=
  String.append
    (match instancePath e with EmptyString => "/" | p => p end)
    (String.append " " (ajv_message e)).

(** The middleware [validateSchema(schema)] returns, lines 90-105: [None]
    is [next()], [Some err] is [next(err)]. *)
Definition validateSchema (v : validation) (originalUrl : string)
    : option app_error :=
  match v with
  | Valid => None
  | Invalid errs =>
      let errors := match errs with Some l => l | None => [] end in
      let detail := String.concat "; " (map describe_error errors) in
      Some (mkAppError (Some "Error") (Some "Validation failed") (Some 400)
              false false
              (Some (mkDoc (buildProblem
                              (Some "https://example.com/probs/invalid-request")
                              (Some "Request validation failed") (Some 400)
                              (Some detail) (Some originalUrl))
                       (Some errors))))
  end.

(** The body of a [POST /order] and the order made of it (line 119). *)
Record order_body := mkOrderBody {
  b_itemId : string;
  b_quantity : nat;
  b_notes : option string
}.

Record order := mkOrder {
  o_id : string;
  o_itemId : string;
  o_quantity : nat;
  o_notes : option string;   (* [None] is [null] *)
  o_createdAt : string
}.

Inductive order_outcome :=
| OrderCreated (status : nat) (data : order)
| OrderRefused (how : handler_outcome).

(** [POST /order], lines 112-122, with the error handler behind it; [uuid]
    and [now] are what [randomUUID()] and [new Date().toISOString()]
    give. *)
Definition order_route (v : validation) (originalUrl uuid now : string)
    (b : order_body) : order_outcome :=
  match validateSchema v originalUrl with
  | Some err => OrderRefused (errorHandler false originalUrl err)
  | None =>
      OrderCreated 201
        (mkOrder uuid (b_itemId b) (b_quantity b)
           (if truthy (b_notes b) then b_notes b else None) now)
  end.

(** The [origin] function given to [cors], line 58: [None] is
    [cb(null, true)], [Some err] is [cb(err)]. *)
Definition cors_origin (whitelist : list string) (origin : option string)
    : option app_error :=
  match origin with
  | None => None
  | Some o =>
      if negb (truthy origin) then None
      else if existsb (String.eqb o) whitelist then None
      else Some (mkAppError (Some "Error") (Some "CORS origin not allowed")
                   None false false None)
  end.

(** [problemJson] of [src/Practical-13.1.js], lines 18-22: no default for
    the title. *)
Definition problemJson (type title : option string) (status : option nat)
    (detail instance : option string) : problem :=
  {| p_type := match type with Some t => t | None => "about:blank" end;
     p_title := title;
     p_status := match status with Some s => s | None => 500 end;
     p_detail := detail;
     p_instance := instance |}.

(** The error handler of [src/Practical-13.1.js], lines 117-125, on a
    response whose headers are not sent.  It has no [try]: with a status
    the response does not take, sending throws out of the handler. *)
Definition errorHandler_negotiation (originalUrl : string) (err : app_error)
    : handler_outcome :=
  let status := status_of err in
  let problem :=
    match err_problem err with
    | Some p => p
    | None =>
        mkDoc (problemJson None
                 (js_or (err_message err) (Some "Internal Server Error"))
                 (Some status) None (Some originalUrl)) None
    end in
  match send_problem status problem with
  | Some answer => answer
  | None => HandlerThrew
  end.

(** ** The whitelist *)

(** White space and line terminators of JavaScript among the code units
    below 256: TAB, LF, VT, FF, CR, SP, NBSP. *)
Definition is_ws (c : Ascii.ascii) : bool :=
  let n := Ascii.nat_of_ascii c in
  (Nat.leb 9 n && Nat.leb n 13) || Nat.eqb n 32 || Nat.eqb n 160.

Definition is_empty (s : string) : bool :=
  match s with EmptyString => true | _ => false end.

Fixpoint trim_start (s : string) : string :=
  match s with
  | EmptyString => EmptyString
  | String c s' => if is_ws c then trim_start s' else s
  end.

Fixpoint trim_end (s : string) : string :=
  match s with
  | EmptyString => EmptyString
  | String c s' =>
      let t := trim_end s' in
      if is_ws c && is_empty t then EmptyString else String c t
  end.

(** [s.trim()] *)
Definition trim (s : string) : string := trim_end (trim_start s).

(** [s.split(sep)] for a separator of one code unit. *)
Fixpoint split_on (sep : Ascii.ascii) (s : string) : list string :=
  match s with
  | EmptyString => [EmptyString]
  | String c s' =>
      let r := split_on sep s' in
      if Ascii.eqb c sep then EmptyString :: r
      else match r with
           | h :: t => String c h :: t
           | [] => [String c EmptyString]
           end
  end.

Definition comma : Ascii.ascii :=
  Ascii.Ascii false false true true false true false false.

(** [(process.env.CORS_WHITELIST || dflt).split(',').map(s => s.trim())
    .filter(Boolean)], lines 10-11. *)
Definition parse_whitelist (env : option string) (dflt : string)
    : list string :=
  let raw := match env with
             | Some v => if truthy env then v else dflt
             | None => dflt
             end in
  filter (fun e => negb (is_empty e)) (map trim (split_on comma raw)).

(** No comma in the string. *)
Fixpoint comma_free (s : string) : bool :=
  match s with
  | EmptyString => true
  | String c s' => negb (Ascii.eqb c comma) && comma_free s'
  end.

(** An entry as the whitelist holds them. *)
Definition clean_entry (e : string) : Prop :=
  e <> EmptyString /\ trim e = e /\ comma_free e = true.

(** Nothing but white space. *)
Fixpoint all_ws (s : string) : bool :=
  match s with
  | EmptyString => true
  | String c s' => is_ws c && all_ws s'
  end.

(** An entry as it may stand in the environment variable: the entry itself
    between two runs of white space. *)
Record padded := mkPadded { pad_left : string; entry : string; pad_right : string }.

Definition padded_text (p : padded) : string :=
  String.append (pad_left p) (String.append (entry p) (pad_right p)).

Definition well_padded (p : padded) : Prop :=
  all_ws (pad_left p) = true /\ all_ws (pad_right p) = true /\
  clean_entry (entry p).

Section Stream.

(** [produceNdjsonItems(count, intervalMs, signal)]; line 201 passes 1000
    and 100. *)
Variables count intervalMs : nat.
Variable R : runtime.

(** The item of iteration [i], line 175. *)
Definition make_item (i : nat) : item :=
  mkItem (i + 1) (uuid R i) (now R i)
    (String.append "item " (NilEmpty.string_of_uint (Nat.to_uint (i + 1)))).

(** ** The [catch] block, lines 218-230 *)
Definition catch_handler (err : js_error) (st : session) : session :=
  if String.eqb (name err) "AbortError" then
    with_task (TDone ExitAbortError) (endStream (req_log LogStoppedAbort st))
  else
    let st1 := req_log (LogStreamingError err) st in
    let st2 :=
      if headersSent (res st1) then st1
      else with_res (set_contentType ProblemJson (res st1)) st1 in
    let st3 :=
      if writableEnded (res st2) then st2
      else
        let p := buildProblem None (Some "Streaming error") (Some 500)
                   (js_or (Some (message err)) (Some "stream error")) None in
        with_res (res_end (Some (ProblemDoc p))
                    (set_statusCode 500 (res st2))) st2 in
    with_task (TDone (ExitFault err)) st3.

(** The loop of line 201 is over without a throw: line 217. *)
Definition loop_exit (x : exit_path) (st : session) : session :=
  with_task (TDone x) (endStream st).

(** The generator at the head of iteration [i] (line 171), up to its
    [await delay(...)]. *)
Definition gen_loop (i : nat) (st : session) : session :=
  if Nat.ltb i count then
    if aborted st then loop_exit ExitSignalBreak st
    else
      match delay intervalMs i st with
      | DelayThrew err st1 => catch_handler err st1
      | DelayPending st1 => with_task (TDelay i) st1
      end
  else loop_exit ExitExhausted st.

(** Lines 206-215: serialise, write, wait for capacity if need be. *)
Definition write_item (i : nat) (st : session) : session :=
  match stringify_fault R i with
  | Some e => catch_handler e st
  | None =>
      let it := make_item i in
      let st1 := note_write (seq it) st in
      match write_result R i with
      | WriteThrows e => catch_handler e st1
      | Accepted =>
          gen_loop (S i) (with_res (res_commit (RecordLine it) (res st1)) st1)
      | Saturated =>
          with_task (TDrain i)
            (with_res (set_listeners true true
                         (res_commit (RecordLine it) (res st1))) st1)
      end
  end.

(** The generator after its [await delay(...)] resolved (lines 174-176),
    then the body of the [for await] (lines 202-215). *)
Definition after_delay (i : nat) (st : session) : session :=
  if aborted st then loop_exit ExitSignalBreak st
  else
    match construct_fault R i with
    | Some e => catch_handler e st
    | None =>
        if aborted st then loop_exit ExitLoopBreak (req_log LogStreamAborted st)
        else write_item i st
    end.

(** Run the continuation of the promise that was settled, if any. *)
Definition resume (st : session) : session :=
  match pending st with
  | None => st
  | Some s =>
      let st0 := with_pending None st in
      match task_of st, s with
      | TDelay i, Resolved => after_delay i st0
      | TDrain i, Resolved => gen_loop (S i) st0
      | TDelay _, Rejected e => catch_handler e st0
      | TDrain _, Rejected e => catch_handler e st0
      | TDone _, _ => st0
      end
  end.

(** ** Event callbacks *)

(** The timer of the running [delay] fires. *)
Definition on_timer (st : session) : session :=
  match timer st, task_of st with
  | Some _, TDelay i => onTimeout i st
  | _, _ => st
  end.

(** [ac.abort()] with the dispatch of ['abort'] to [onAbort]. *)
Definition abort_signal (st : session) : session :=
  let '(s, fired) := AbortSignal.abort (sig st) in
  fold_left (fun acc cb => onAbort cb acc) fired (with_sig s st).

(** The middleware's [onClose], lines 75-80. *)
Definition mw_onClose (st : session) : session :=
  if negb (aborted st) then req_log LogClientDisconnected (abort_signal st)
  else st.

(** The handler's ['close'] listener on [req], lines 193-197. *)
Definition handler_onClose (st : session) : session :=
  if negb (aborted st) then req_log LogClientClosed st else st.

(** [req] emits ['close'] (once): the middleware's listener was
    registered first. *)
Definition emit_req_close (st : session) : session :=
  if reqClosed st then st
  else
    let st1 := if mwClose st then mw_onClose st else st in
    with_reqClosed true (handler_onClose st1).

(** [onDrain], line 210. *)
Definition onDrain (st : session) : session :=
  settle Resolved (with_res (set_listeners false false (res st)) st).

(** [onClose], line 211. *)
Definition onClose (st : session) : session :=
  settle Resolved (with_res (set_listeners false false (res st)) st).

(** [res] emits ['drain']. *)
Definition emit_drain (st : session) : session :=
  if drainL (res st) then onDrain st else st.

(** [res] emits ['close'] (once). *)
Definition emit_res_close (st : session) : session :=
  if resClosed (res st) then st
  else
    let st1 := if closeL (res st) then onClose st else st in
    with_res (set_resClosed (res st1)) st1.

(** [res] emits ['finish'] once [end] was called and the data is flushed:
    line 82 takes the middleware's listener off [req]. *)
Definition emit_finish (st : session) : session :=
  if writableEnded (res st) then with_mwClose false st else st.

(** What the environment can do to a session.  [EvConnClosed] is the
    transport reporting the connection closed: ['close'] reaches [req]
    (unless it was emitted before) and [res] in the same turn, before the
    suspended async function runs again; the listeners on the two touch
    different parts of the state, so their order is immaterial
    ([conn_closed_order] below). *)
Inductive event := EvTimer | EvDrain | EvReqClose | EvConnClosed | EvFinish.

Definition handle (ev : event) (st : session) : session :=
  match ev with
  | EvTimer => on_timer st
  | EvDrain => emit_drain st
  | EvReqClose => emit_req_close st
  | EvConnClosed => emit_res_close (emit_req_close st)
  | EvFinish => emit_finish st
  end.

(** One turn of the event loop. *)
Definition step (st : session) (ev : event) : session :=
  resume (handle ev st).

Definition run (evs : list event) (st : session) : session :=
  fold_left step evs st.

(** The handler of [GET /stream] up to its first suspension, on a request
    whose signal is [s0]: lines 181-186, then the async function runs up to
    its first [await] ([gen_loop] sets the task; the value given here is
    never read). *)
Definition start (s0 : AbortSignal.t) : session :=
  gen_loop 0
    (mkSession s0 res0 false true false None (TDone ExitExhausted) None [] [] []).

(** The session of a fresh request (the middleware of lines 71-84 has just
    created the controller). *)
Definition open : session := start AbortSignal.fresh.

(** The run 1, 2, ..., [k]. *)
Definition seq_run (k : nat) : list nat := List.seq 1 k.

(** The body after [k] records went out. *)
Definition lines (k : nat) : list chunk :=
  map (fun i => RecordLine (make_item i)) (List.seq 0 k).

(** The problem document the [catch] block builds for [e], line 227. *)
Definition stream_problem (e : js_error) : problem :=
  buildProblem None (Some "Streaming error") (Some 500)
    (js_or (Some (message e)) (Some "stream error")) None.

(** The response while the loop runs, [k] records written; [d] tells
    whether the backpressure listeners are on, [c] whether [res] emitted
    ['close']. *)
Definition running_res (k : nat) (d c : bool) : response :=
  mkResponse 200 Ndjson (Nat.ltb 0 k)
    (if Nat.ltb 0 k then Some (200, Ndjson) else None)
    (lines k) false 0 d d c.

(** The response after [endStream] closed it behind [k] records. *)
Definition ended_res (k : nat) (c : bool) : response :=
  mkResponse 200 Ndjson true (Some (200, Ndjson)) (lines k) true 1 false
    false c.

(** The response after the [catch] block reported [e] behind [k] records
    (lines 225-228). *)
Definition failed_res (e : js_error) (k : nat) (c : bool) : response :=
  mkResponse 500 (if Nat.ltb 0 k then Ndjson else ProblemJson) true
    (Some (if Nat.ltb 0 k then (200, Ndjson) else (500, ProblemJson)))
    (lines k ++ [ProblemDoc (stream_problem e)]) true 1 false false c.

(** The environment injected the fault [e] into iteration [k]. *)
Definition injected (k : nat) (e : js_error) : Prop :=
  construct_fault R k = Some e \/ stringify_fault R k = Some e \/
  write_result R k = WriteThrows e.

(** What holds of a finished session that left the loop by [x] after [k]
    records. *)
Definition done_ok (x : exit_path) (k : nat) (st : session) : Prop :=
  match x with
  | ExitExhausted =>
      k = count /\ ended st = true /\ body (res st) = lines k /\
      wireHead (res st) = Some (200, Ndjson) /\
      writeCalls st = seq_run k
  | ExitSignalBreak =>
      aborted st = true /\ ended st = true /\ body (res st) = lines k /\
      wireHead (res st) = Some (200, Ndjson) /\
      writeCalls st = seq_run k
  | ExitAbortError =>
      k < count /\ ended st = true /\ body (res st) = lines k /\
      wireHead (res st) = Some (200, Ndjson) /\
      (writeCalls st = seq_run k \/ writeCalls st = seq_run (S k)) /\
      (aborted st = true \/ exists e, injected k e)
  | ExitLoopBreak => False
  | ExitFault e =>
      k < count /\ injected k e /\ name e <> "AbortError" /\
      ended st = false /\
      body (res st) = lines k ++ [ProblemDoc (stream_problem e)] /\
      wireHead (res st) =
        Some (if Nat.ltb 0 k then (200, Ndjson) else (500, ProblemJson)) /\
      (writeCalls st = seq_run k \/ writeCalls st = seq_run (S k))
  end.

(** The invariant of a session. *)
Definition Inv (st : session) : Prop :=
  pending st = None /\
  Forall (fun b => b = false) (delayCalls st) /\
  match task_of st with
  | TDelay i =>
      i < count /\ sig st = AbortSignal.mk false [i] /\
      res st = running_res i false false /\ ended st = false /\
      mwClose st = true /\ reqClosed st = false /\
      timer st = Some intervalMs /\ writeCalls st = seq_run i
  | TDrain i =>
      i < count /\ AbortSignal.listeners (sig st) = [] /\
      res st = running_res (S i) true false /\ ended st = false /\
      mwClose st = true /\ reqClosed st = aborted st /\
      timer st = None /\ writeCalls st = seq_run (S i)
  | TDone x =>
      AbortSignal.listeners (sig st) = [] /\ timer st = None /\
      writableEnded (res st) = true /\ endCalls (res st) = 1 /\
      drainL (res st) = false /\ closeL (res st) = false /\
      exists k, k <= count /\ done_ok x k st
  end.

(** The session suspended in the [delay] of iteration [i]; only the log
    and the ghost record of [delay] calls vary. *)
Definition delay_state (i : nat) (lg : list log_entry) (dc : list bool)
    : session :=
  mkSession (AbortSignal.mk false [i]) (running_res i false false) false
    true false (Some intervalMs) (TDelay i) None lg (seq_run i) dc.

(** The same session once the timer callback ran and [await] took the
    resolution. *)
Definition ready_state (i : nat) (lg : list log_entry) (dc : list bool)
    : session :=
  mkSession (AbortSignal.mk false []) (running_res i false false) false
    true false None (TDelay i) None lg (seq_run i) dc.

(** The session suspended in the backpressure wait after item [i+1];
    [a] tells whether [req] emitted ['close'] meanwhile. *)
Definition drain_state (i : nat) (a : bool) (lg : list log_entry)
    (dc : list bool) : session :=
  mkSession (AbortSignal.mk a []) (running_res (S i) true false) false true
    a None (TDrain i) None lg (seq_run (S i)) dc.

(** The same session once [onDrain] or [onClose] ran and [await] took the
    resolution. *)
Definition resumed_state (i : nat) (a c : bool) (lg : list log_entry)
    (dc : list bool) : session :=
  mkSession (AbortSignal.mk a []) (running_res (S i) false c) false true a
    None (TDrain i) None lg (seq_run (S i)) dc.

(** A session that left the loop by [x] and went through [endStream]. *)
Definition finished (x : exit_path) (k : nat) (a c rc : bool)
    (lg : list log_entry) (wc : list nat) (dc : list bool) : session :=
  mkSession (AbortSignal.mk a []) (ended_res k c) true true rc None
    (TDone x) None lg wc dc.

(** A session the [catch] block closed with a problem document. *)
Definition failed (e : js_error) (k : nat) (a c rc : bool)
    (lg : list log_entry) (wc : list nat) (dc : list bool) : session :=
  mkSession (AbortSignal.mk a []) (failed_res e k c) false true rc None
    (TDone (ExitFault e)) None (lg ++ [LogStreamingError e]) wc dc.

(** The first fault the environment injects into iteration [i], in the
    order the code meets them: building the item (line 175), serialising
    it (line 206), writing it (line 207). *)
Definition fault_at (i : nat) : option js_error :=
  match construct_fault R i with
  | Some e => Some e
  | None =>
      match stringify_fault R i with
      | Some e => Some e
      | None =>
          match write_result R i with
          | WriteThrows e => Some e
          | _ => None
          end
      end
  end.

Definition fault_free : Prop := forall i, fault_at i = None.

(** The events that tell of the client going away. *)
Definition is_close (ev : event) : bool :=
  match ev with
  | EvReqClose | EvConnClosed => true
  | _ => false
  end.

(** The event a suspended session waits for when nothing is cancelled. *)
Definition next_event (st : session) : option event :=
  match task_of st with
  | TDelay _ => Some EvTimer
  | TDrain _ => Some EvDrain
  | TDone _ => None
  end.

(** A client that stays: every timer fires, every saturation drains. *)
Fixpoint drive (fuel : nat) (st : session) : session :=
  match fuel with
  | 0 => st
  | S fuel' =>
      match next_event st with
      | Some ev => drive fuel' (step st ev)
      | None => st
      end
  end.

(** The errors in the log, by the state of the async function. *)
Definition log_tells_failure (st : session) : Prop :=
  match task_of st with
  | TDone (ExitFault e) => error_entries (log st) = [e]
  | _ => error_entries (log st) = []
  end.

Lemma seq_run_eq (k : nat) : seq_run k = List.seq 1 k.
Proof. reflexivity. Qed.

Lemma lines_0 : lines 0 = [].
Proof. reflexivity. Qed.

Lemma lines_S (k : nat) : lines (S k) = lines k ++ [RecordLine (make_item k)].
Proof. unfold lines. rewrite seq_S, map_app. reflexivity. Qed.

Lemma record_seqs_app (a b : list chunk) :
  record_seqs (a ++ b) = record_seqs a ++ record_seqs b.
Proof.
  induction a as [|c a IH]; simpl; [reflexivity|].
  destruct c; simpl; rewrite IH; reflexivity.
Qed.

Lemma problem_docs_app (a b : list chunk) :
  problem_docs (a ++ b) = problem_docs a ++ problem_docs b.
Proof.
  induction a as [|c a IH]; simpl; [reflexivity|].
  destruct c; simpl; rewrite IH; reflexivity.
Qed.

Lemma seq_run_S (k : nat) : seq_run (S k) = seq_run k ++ [k + 1].
Proof. unfold seq_run. rewrite seq_S, Nat.add_1_r. reflexivity. Qed.

Lemma record_seqs_lines (k : nat) : record_seqs (lines k) = seq_run k.
Proof.
  induction k as [|k IH]; [reflexivity|].
  rewrite lines_S, record_seqs_app, IH, seq_run_S. reflexivity.
Qed.

Lemma problem_docs_lines (k : nat) : problem_docs (lines k) = [].
Proof.
  induction k as [|k IH]; [reflexivity|].
  rewrite lines_S, problem_docs_app, IH. reflexivity.
Qed.

Opaque lines seq_run.

Ltac flat :=
  cbv beta iota delta
    [with_sig with_res with_ended with_mwClose with_reqClosed with_timer
     with_task with_pending req_log note_write note_delay aborted
     handler_onClose sig res ended mwClose reqClosed timer task_of pending
     log writeCalls delayCalls AbortSignal.aborted AbortSignal.listeners
     negb].

Lemma Inv_open : Inv open.
Proof.
  unfold open, start, gen_loop.
  destruct (Nat.ltb 0 count) eqn:Hc; simpl.
  - apply Nat.ltb_lt in Hc. repeat split; simpl; auto.
  - apply Nat.ltb_ge in Hc. repeat split; auto.
    exists 0. repeat split; auto; lia.
Qed.

Lemma done_step (ev : event) (x : exit_path) a r en mw rc lg wc dc :
  drainL r = false -> closeL r = false ->
  exists a' rcl' mw' rc' lg',
    step (mkSession (AbortSignal.mk a []) r en mw rc None (TDone x) None
            lg wc dc) ev =
    mkSession (AbortSignal.mk a' [])
      (mkResponse (statusCode r) (contentType r) (headersSent r)
         (wireHead r) (body r) (writableEnded r) (endCalls r) false false
         rcl')
      en mw' rc' None (TDone x) None lg' wc dc /\
    (a = true -> a' = true) /\
    (is_close ev = false -> a' = a) /\
    (forall e, In (LogStreamingError e) lg' -> In (LogStreamingError e) lg).
Proof.
  destruct r as [sc ct hs wh bd we ec dl cl rcl]; simpl; intros -> ->.
  destruct ev; unfold step, handle;
    destruct a, mw, rc, rcl, we; do 5 eexists;
    (split; [reflexivity | split; [auto | split; [auto; discriminate |]]]);
    intros e Hin; try exact Hin;
    apply in_app_or in Hin; destruct Hin as [Hin | [Hin | []]];
    try exact Hin; discriminate.
Qed.

Lemma done_frame (st : session) (ev : event) (x : exit_path) :
  pending st = None -> timer st = None ->
  AbortSignal.listeners (sig st) = [] ->
  drainL (res st) = false -> closeL (res st) = false ->
  task_of st = TDone x ->
  let st' := step st ev in
  pending st' = None /\ timer st' = None /\
  AbortSignal.listeners (sig st') = [] /\
  task_of st' = TDone x /\ ended st' = ended st /\
  writeCalls st' = writeCalls st /\ delayCalls st' = delayCalls st /\
  statusCode (res st') = statusCode (res st) /\
  contentType (res st') = contentType (res st) /\
  headersSent (res st') = headersSent (res st) /\
  wireHead (res st') = wireHead (res st) /\
  body (res st') = body (res st) /\
  writableEnded (res st') = writableEnded (res st) /\
  endCalls (res st') = endCalls (res st) /\
  drainL (res st') = false /\ closeL (res st') = false /\
  (aborted st = true -> aborted st' = true) /\
  (forall e, In (LogStreamingError e) (log st') ->
             In (LogStreamingError e) (log st)) /\
  (is_close ev = false -> aborted st' = aborted st).
Proof.
  intros Hp Htm Hl Hd Hc Ht st'. subst st'.
  destruct st as [[a l] r en mw rc tm tk pd lg wc dc].
  unfold aborted; simpl in Hp, Htm, Hl, Hd, Hc, Ht; subst.
  destruct (done_step ev x a r en mw rc lg wc dc Hd Hc)
    as (a' & rcl' & mw' & rc' & lg' & -> & Ha & Hnc & Hlg).
  simpl. repeat split; auto.
Qed.

(** *** The shape of a suspended session *)

Lemma Inv_delay (st : session) (i : nat) :
  Inv st -> task_of st = TDelay i ->
  st = delay_state i (log st) (delayCalls st) /\ i < count.
Proof.
  intros (Hp & Hd & Ht) Htask. rewrite Htask in Ht.
  destruct Ht as (Hi & Hs & Hr & He & Hm & Hq & Htm & Hw).
  destruct st; simpl in *; subst. split; [reflexivity | assumption].
Qed.

Lemma Inv_drain (st : session) (i : nat) :
  Inv st -> task_of st = TDrain i ->
  st = drain_state i (aborted st) (log st) (delayCalls st) /\ i < count.
Proof.
  intros (Hp & Hd & Ht) Htask. rewrite Htask in Ht.
  destruct Ht as (Hi & Hs & Hr & He & Hm & Hq & Htm & Hw).
  destruct st as [[a l] rs en mw rc tm tk pd lg wc dc].
  unfold aborted in *; simpl in *; subst. split; [reflexivity | assumption].
Qed.

(** *** One turn from a suspended session *)

Lemma step_delay_timer (i : nat) lg dc :
  step (delay_state i lg dc) EvTimer = after_delay i (ready_state i lg dc).
Proof.
  unfold step, handle, on_timer, delay_state, onTimeout, cleanup, settle,
    AbortSignal.removeEventListener, resume; simpl.
  rewrite Nat.eqb_refl. reflexivity.
Qed.

Lemma res_commit_running (k : nat) (d c : bool) :
  res_commit (RecordLine (make_item k)) (running_res k d c) =
  running_res (S k) d c.
Proof.
  unfold res_commit, flush_head, running_res.
  destruct (Nat.ltb 0 k); simpl; rewrite lines_S; reflexivity.
Qed.

Lemma res_end_running (k : nat) (c : bool) :
  res_end None (running_res k false c) = ended_res k c.
Proof.
  unfold res_end, flush_head, running_res, ended_res.
  destruct (Nat.ltb 0 k); simpl; rewrite app_nil_r; reflexivity.
Qed.

Lemma res_end_failed (e : js_error) (k : nat) (c : bool) :
  res_end (Some (ProblemDoc (stream_problem e)))
    (set_statusCode 500
       (if headersSent (running_res k false c) then running_res k false c
        else set_contentType ProblemJson (running_res k false c))) =
  failed_res e k c.
Proof.
  unfold res_end, flush_head, running_res, failed_res, set_statusCode,
    set_contentType; simpl.
  destruct (Nat.ltb 0 k); reflexivity.
Qed.

(** The [catch] block on a session whose loop was running. *)
Lemma catch_handler_running (e : js_error) (k : nat) (a c rc : bool)
    (tk : task) lg wc dc :
  catch_handler e
    (mkSession (AbortSignal.mk a []) (running_res k false c) false true rc
       None tk None lg wc dc) =
  if String.eqb (name e) "AbortError"
  then finished ExitAbortError k a c rc (lg ++ [LogStoppedAbort]) wc dc
  else failed e k a c rc lg wc dc.
Proof.
  unfold catch_handler. destruct (String.eqb (name e) "AbortError").
  - unfold endStream, finished; simpl. rewrite res_end_running. reflexivity.
  - unfold failed. rewrite <- res_end_failed. simpl.
    destruct (Nat.ltb 0 k); reflexivity.
Qed.

(** The generator at the head of iteration [j], entered from a session
    whose loop was running. *)
Lemma gen_loop_running (j : nat) (a c rc : bool) (tk : task) lg wc dc :
  gen_loop j
    (mkSession (AbortSignal.mk a []) (running_res j false c) false true rc
       None tk None lg wc dc) =
  if Nat.ltb j count then
    if a then finished ExitSignalBreak j true c rc lg wc dc
    else mkSession (AbortSignal.mk false [j]) (running_res j false c) false
           true rc (Some intervalMs) (TDelay j) None lg wc (dc ++ [false])
  else finished ExitExhausted j a c rc lg wc dc.
Proof.
  unfold gen_loop. destruct (Nat.ltb j count).
  - destruct a; unfold aborted; simpl.
    + unfold loop_exit, endStream, finished; simpl.
      rewrite res_end_running. reflexivity.
    + reflexivity.
  - unfold loop_exit, endStream, finished; simpl.
    rewrite res_end_running. reflexivity.
Qed.

(** The iteration after its delay: lines 174-176 and 202-215. *)
Lemma after_delay_ready (i : nat) lg dc :
  after_delay i (ready_state i lg dc) =
  match construct_fault R i with
  | Some e => catch_handler e (ready_state i lg dc)
  | None =>
      match stringify_fault R i with
      | Some e => catch_handler e (ready_state i lg dc)
      | None =>
          match write_result R i with
          | WriteThrows e =>
              catch_handler e (note_write (i + 1) (ready_state i lg dc))
          | Accepted =>
              if Nat.ltb (S i) count
              then delay_state (S i) lg (dc ++ [false])
              else finished ExitExhausted (S i) false false false lg
                     (seq_run (S i)) dc
          | Saturated => drain_state i false lg dc
          end
      end
  end.
Proof.
  unfold after_delay, ready_state, aborted; simpl.
  destruct (construct_fault R i); [reflexivity|].
  unfold write_item. destruct (stringify_fault R i); [reflexivity|].
  destruct (write_result R i); simpl.
  - rewrite res_commit_running.
    unfold note_write, with_res; simpl. rewrite <- seq_run_S.
    rewrite gen_loop_running. reflexivity.
  - rewrite res_commit_running.
    unfold drain_state, note_write, with_res, with_task; simpl.
    rewrite <- seq_run_S. reflexivity.
  - reflexivity.
Qed.

(** ['close'] on [req] during the delay: the middleware aborts the signal,
    [onAbort] rejects, the [catch] block ends the stream. *)
Lemma step_delay_req_close (i : nat) lg dc :
  step (delay_state i lg dc) EvReqClose =
  finished ExitAbortError i true false true
    (lg ++ [LogClientDisconnected; LogStoppedAbort]) (seq_run i) dc.
Proof.
  unfold step, handle, emit_req_close, delay_state, mw_onClose, aborted,
    abort_signal, AbortSignal.abort; simpl.
  unfold onAbort, cleanup, settle, AbortSignal.removeEventListener; simpl.
  rewrite Nat.eqb_refl; simpl.
  unfold resume; simpl. flat. rewrite catch_handler_running. simpl.
  rewrite <- app_assoc. reflexivity.
Qed.

Lemma step_delay_conn_closed (i : nat) lg dc :
  step (delay_state i lg dc) EvConnClosed =
  finished ExitAbortError i true true true
    (lg ++ [LogClientDisconnected; LogStoppedAbort]) (seq_run i) dc.
Proof.
  unfold step, handle, emit_req_close, delay_state, mw_onClose, aborted,
    abort_signal, AbortSignal.abort; simpl.
  unfold onAbort, cleanup, settle, AbortSignal.removeEventListener; simpl.
  rewrite Nat.eqb_refl; simpl.
  unfold emit_res_close; simpl.
  unfold resume; simpl. flat.
  change (set_resClosed (running_res i false false))
    with (running_res i false true).
  rewrite catch_handler_running. simpl.
  rewrite <- app_assoc. reflexivity.
Qed.

Lemma step_delay_other (i : nat) (ev : event) lg dc :
  ev = EvDrain \/ ev = EvFinish ->
  step (delay_state i lg dc) ev = delay_state i lg dc.
Proof. intros [-> | ->]; reflexivity. Qed.

(** ['drain'] during the backpressure wait. *)
Lemma step_drain_drain (i : nat) (a : bool) lg dc :
  step (drain_state i a lg dc) EvDrain =
  gen_loop (S i) (resumed_state i a false lg dc).
Proof. reflexivity. Qed.

(** The connection closes during the backpressure wait: [onClose]
    resolves the wait, the middleware has aborted the signal. *)
Lemma step_drain_conn_closed (i : nat) (a : bool) lg dc :
  step (drain_state i a lg dc) EvConnClosed =
  gen_loop (S i)
    (resumed_state i true true
       (if a then lg else lg ++ [LogClientDisconnected]) dc).
Proof. destruct a; reflexivity. Qed.

Lemma step_drain_req_close (i : nat) (a : bool) lg dc :
  step (drain_state i a lg dc) EvReqClose =
  drain_state i true (if a then lg else lg ++ [LogClientDisconnected]) dc.
Proof. destruct a; reflexivity. Qed.

Lemma step_drain_other (i : nat) (a : bool) (ev : event) lg dc :
  ev = EvTimer \/ ev = EvFinish ->
  step (drain_state i a lg dc) ev = drain_state i a lg dc.
Proof. intros [-> | ->]; reflexivity. Qed.

Lemma gen_loop_resumed (i : nat) (a c : bool) lg dc :
  gen_loop (S i) (resumed_state i a c lg dc) =
  if Nat.ltb (S i) count then
    if a then finished ExitSignalBreak (S i) true c a lg (seq_run (S i)) dc
    else mkSession (AbortSignal.mk false [S i]) (running_res (S i) false c)
           false true a (Some intervalMs) (TDelay (S i)) None lg
           (seq_run (S i)) (dc ++ [false])
  else finished ExitExhausted (S i) a c a lg (seq_run (S i)) dc.
Proof. unfold resumed_state. apply gen_loop_running. Qed.

(** *** The invariant holds of every session *)

Lemma Inv_delay_state (i : nat) lg dc :
  i < count -> Forall (fun b => b = false) dc -> Inv (delay_state i lg dc).
Proof. intros Hi Hd. unfold Inv; simpl. repeat split; auto. Qed.

Lemma Inv_drain_state (i : nat) (a : bool) lg dc :
  i < count -> Forall (fun b => b = false) dc -> Inv (drain_state i a lg dc).
Proof. intros Hi Hd. unfold Inv; simpl. repeat split; auto. Qed.

Lemma Inv_finished (x : exit_path) (k : nat) (a c rc : bool) lg wc dc :
  Forall (fun b => b = false) dc -> k <= count ->
  done_ok x k (finished x k a c rc lg wc dc) ->
  Inv (finished x k a c rc lg wc dc).
Proof.
  intros Hd Hk Hok. unfold Inv; simpl. repeat split; auto.
  exists k. split; assumption.
Qed.

Lemma Inv_failed (e : js_error) (k : nat) (a c rc : bool) lg wc dc :
  Forall (fun b => b = false) dc -> k < count -> injected k e ->
  name e <> "AbortError" ->
  wc = seq_run k \/ wc = seq_run (S k) ->
  Inv (failed e k a c rc lg wc dc).
Proof.
  intros Hd Hk Hin Hn Hw. unfold Inv; simpl. repeat split; auto.
  exists k. split; [lia|]. simpl. repeat split; auto.
Qed.

Lemma Inv_catch (e : js_error) (k : nat) (a c rc : bool) (tk : task)
    lg wc dc :
  Forall (fun b => b = false) dc -> k < count -> injected k e ->
  wc = seq_run k \/ wc = seq_run (S k) ->
  Inv (catch_handler e
         (mkSession (AbortSignal.mk a []) (running_res k false c) false
            true rc None tk None lg wc dc)).
Proof.
  intros Hd Hk Hin Hw. rewrite catch_handler_running.
  destruct (String.eqb (name e) "AbortError") eqn:He.
  - apply Inv_finished; [assumption | lia |]. simpl. repeat split; auto.
    right. exists e. assumption.
  - apply String.eqb_neq in He. apply Inv_failed; assumption.
Qed.

Lemma Inv_gen_loop (i : nat) (a c : bool) lg dc :
  i < count -> Forall (fun b => b = false) dc -> (a = false -> c = false) ->
  Inv (gen_loop (S i) (resumed_state i a c lg dc)).
Proof.
  intros Hi Hd Hac. rewrite gen_loop_resumed.
  destruct (Nat.ltb (S i) count) eqn:Hlt.
  - apply Nat.ltb_lt in Hlt. destruct a.
    + apply Inv_finished; [assumption | lia |]. simpl. repeat split; auto.
    + rewrite (Hac eq_refl). apply Inv_delay_state; [assumption|].
      apply Forall_app. split; [assumption | repeat constructor].
  - apply Nat.ltb_ge in Hlt.
    apply Inv_finished; [assumption | lia |]. simpl.
    repeat split; auto. lia.
Qed.

Lemma Inv_step_delay (st : session) (ev : event) (i : nat) :
  Inv st -> task_of st = TDelay i -> Inv (step st ev).
Proof.
  intros H Htask. destruct (Inv_delay st i H Htask) as [Hst Hi].
  assert (Hd : Forall (fun b => b = false) (delayCalls st)) by apply H.
  rewrite Hst. clear Hst.
  generalize dependent (delayCalls st). generalize (log st).
  intros lg dc Hd. destruct ev.
  - rewrite step_delay_timer, after_delay_ready.
    destruct (construct_fault R i) as [e|] eqn:Hc.
    { apply Inv_catch; unfold injected; auto. }
    destruct (stringify_fault R i) as [e|] eqn:Hs.
    { apply Inv_catch; unfold injected; auto. }
    destruct (write_result R i) as [| |e] eqn:Hw.
    + destruct (Nat.ltb (S i) count) eqn:Hlt.
      * apply Nat.ltb_lt in Hlt. apply Inv_delay_state; [assumption|].
        apply Forall_app. split; [assumption | repeat constructor].
      * apply Nat.ltb_ge in Hlt.
        apply Inv_finished; [assumption | lia |]. simpl.
        repeat split; auto. lia.
    + apply Inv_drain_state; assumption.
    + unfold note_write, ready_state; simpl. rewrite <- seq_run_S.
      apply Inv_catch; unfold injected; auto.
  - rewrite step_delay_other by auto. apply Inv_delay_state; assumption.
  - rewrite step_delay_req_close.
    apply Inv_finished; [assumption | lia |]. simpl. repeat split; auto.
  - rewrite step_delay_conn_closed.
    apply Inv_finished; [assumption | lia |]. simpl. repeat split; auto.
  - rewrite step_delay_other by auto. apply Inv_delay_state; assumption.
Qed.

Lemma Inv_step_drain (st : session) (ev : event) (i : nat) :
  Inv st -> task_of st = TDrain i -> Inv (step st ev).
Proof.
  intros H Htask. destruct (Inv_drain st i H Htask) as [Hst Hi].
  assert (Hd : Forall (fun b => b = false) (delayCalls st)) by apply H.
  rewrite Hst. clear Hst.
  generalize dependent (delayCalls st). generalize (log st).
  generalize (aborted st).
  intros a lg dc Hd. destruct ev.
  - rewrite step_drain_other by auto. apply Inv_drain_state; assumption.
  - rewrite step_drain_drain. apply Inv_gen_loop; auto.
  - rewrite step_drain_req_close. apply Inv_drain_state; assumption.
  - rewrite step_drain_conn_closed. apply Inv_gen_loop; auto.
  - rewrite step_drain_other by auto. apply Inv_drain_state; assumption.
Qed.

Lemma Inv_step_done (st : session) (ev : event) (x : exit_path) :
  Inv st -> task_of st = TDone x -> Inv (step st ev).
Proof.
  intros (Hp & Hd & Ht) Htask. rewrite Htask in Ht.
  destruct Ht as (Hl & Htm & Hwe & Hec & Hdl & Hcl & k & Hk & Hok).
  destruct (done_frame st ev x Hp Htm Hl Hdl Hcl Htask)
    as (F1 & F2 & F3 & F4 & F5 & F6 & F7 & F8 & F9 & F10 & F11 & F12 & F13
        & F14 & F15 & F16 & F17 & F18 & F19).
  unfold Inv. rewrite F1, F4, F7. repeat split; auto; try congruence.
  exists k. split; [assumption|].
  destruct x; simpl in *; rewrite ?F5, ?F6, ?F11, ?F12; intuition.
Qed.

Lemma Inv_step (st : session) (ev : event) : Inv st -> Inv (step st ev).
Proof.
  intros H. destruct (task_of st) eqn:Ht.
  - eapply Inv_step_delay; eauto.
  - eapply Inv_step_drain; eauto.
  - eapply Inv_step_done; eauto.
Qed.

Lemma run_app (a b : list event) (st : session) :
  run (a ++ b) st = run b (run a st).
Proof. apply fold_left_app. Qed.

Lemma Inv_run (evs : list event) (st : session) : Inv st -> Inv (run evs st).
Proof.
  revert st. induction evs as [|ev evs IH]; intros st H; [exact H|].
  simpl. apply IH, Inv_step, H.
Qed.

Lemma Inv_reachable (evs : list event) : Inv (run evs open).
Proof. apply Inv_run, Inv_open. Qed.


(** *** The order of the two ['close'] events

    Whether ['close'] reaches [req] or [res] first makes no difference to
    the turn. *)
Lemma conn_closed_order (st : session) :
  Inv st ->
  resume (emit_req_close (emit_res_close st)) = step st EvConnClosed.
Proof.
  intros HI. destruct (task_of st) as [i | i | x] eqn:Ht.
  - destruct (Inv_delay st i HI Ht) as [Hst _]. rewrite Hst.
    unfold step, handle, emit_res_close, emit_req_close, mw_onClose,
      handler_onClose, abort_signal, aborted, AbortSignal.abort, delay_state;
      simpl.
    unfold onAbort, cleanup, settle, AbortSignal.removeEventListener; simpl.
    rewrite Nat.eqb_refl. reflexivity.
  - destruct (Inv_drain st i HI Ht) as [Hst _]. rewrite Hst.
    destruct (aborted st); reflexivity.
  - destruct HI as (Hp & _ & HT). rewrite Ht in HT.
    destruct HT as (Hl & Htm & _ & _ & Hdl & Hcl & _).
    destruct st as [[a l] [sc ct hs wh bd we ec dl cl rcl] en mw rc tm tk pd
                      lg wc dc].
    simpl in *; subst.
    destruct a, mw, rc, rcl; reflexivity.
Qed.

(** *** A finished session stays finished *)

Lemma done_run (evs : list event) (st : session) (x : exit_path) :
  Inv st -> task_of st = TDone x ->
  let st' := run evs st in
  task_of st' = TDone x /\
  body (res st') = body (res st) /\
  writeCalls st' = writeCalls st /\
  delayCalls st' = delayCalls st /\
  endCalls (res st') = endCalls (res st) /\
  wireHead (res st') = wireHead (res st) /\
  (forall e, In (LogStreamingError e) (log st') ->
             In (LogStreamingError e) (log st)).
Proof.
  revert st. induction evs as [|ev evs IH]; intros st HI Ht; simpl.
  - repeat split; auto.
  - destruct HI as (Hp & Hd & HT). pose proof HT as HT'.
    rewrite Ht in HT'.
    destruct HT' as (Hl & Htm & Hwe & Hec & Hdl & Hcl & _).
    destruct (done_frame st ev x Hp Htm Hl Hdl Hcl Ht)
      as (F1 & F2 & F3 & F4 & F5 & F6 & F7 & F8 & F9 & F10 & F11 & F12
          & F13 & F14 & F15 & F16 & F17 & F18 & F19).
    assert (HI' : Inv (step st ev)).
    { apply Inv_step. repeat split; assumption. }
    destruct (IH (step st ev) HI' F4) as (G1 & G2 & G3 & G4 & G5 & G6 & G7).
    repeat split; try congruence. auto.
Qed.

(** ** The sequence of records written *)

(** C1: at every moment of every session the [seq] values of the records
    on the wire are 1, 2, ..., k for some k up to the item count, and the
    calls of [res.write] were made for the items 1, 2, ..., k in that
    order (or up to k+1, when the last call threw): a run from 1 without
    gap or repetition, whatever the events and the faults. *)
Theorem C1_written_seqs_run_from_one (evs : list event) :
  exists k, k <= count /\
    record_seqs (body (res (run evs open))) = List.seq 1 k /\
    (writeCalls (run evs open) = List.seq 1 k \/
     writeCalls (run evs open) = List.seq 1 (S k)).
Proof.
  enough (H : exists k, k <= count /\
              record_seqs (body (res (run evs open))) = seq_run k /\
              (writeCalls (run evs open) = seq_run k \/
               writeCalls (run evs open) = seq_run (S k))).
  { destruct H as (k & Hk & Hb & Hw). exists k.
    rewrite <- !seq_run_eq. auto. }
  destruct (Inv_reachable evs) as (_ & _ & HT).
  destruct (task_of (run evs open)) as [i | i | x] eqn:Ht.
  - destruct HT as (Hi & _ & Hr & _ & _ & _ & _ & Hw).
    exists i. rewrite Hr, Hw. simpl. rewrite record_seqs_lines.
    repeat split; auto. lia.
  - destruct HT as (Hi & _ & Hr & _ & _ & _ & _ & Hw).
    exists (S i). rewrite Hr, Hw. simpl. rewrite record_seqs_lines.
    repeat split; auto.
  - destruct HT as (_ & _ & _ & _ & _ & _ & k & Hk & Hok).
    exists k. split; [assumption|].
    destruct x; simpl in Hok.
    + destruct Hok as (_ & _ & Hb & _ & Hw).
      rewrite Hb, Hw, record_seqs_lines. auto.
    + destruct Hok as (_ & _ & Hb & _ & Hw).
      rewrite Hb, Hw, record_seqs_lines. auto.
    + contradiction.
    + destruct Hok as (_ & _ & Hb & _ & Hw & _).
      rewrite Hb, record_seqs_lines. auto.
    + destruct Hok as (_ & _ & _ & _ & Hb & _ & Hw).
      rewrite Hb, record_seqs_app, record_seqs_lines. simpl.
      rewrite app_nil_r. auto.
Qed.

(** ** Cancellation during the delay *)

(** C2: when the connection's ['close'] reaches a session suspended in
    the inter-item delay, the signal goes from active to aborted, the
    timer is cleared and the listener removed in the same turn, the async
    function ends through the [AbortError] branch of the [catch] block,
    nothing is written and [delay] is not called again, then or ever
    after, and no streaming error is logged or put on the wire. *)
Theorem C2_abort_during_delay_is_silent (evs : list event) (i : nat)
    (ev : event) :
  task_of (run evs open) = TDelay i ->
  is_close ev = true ->
  let st := run evs open in
  let st' := step st ev in
  aborted st = false /\ aborted st' = true /\
  timer st' = None /\ AbortSignal.listeners (sig st') = [] /\
  task_of st' = TDone ExitAbortError /\
  outcome_of ExitAbortError = CANCELLED /\
  log st' = log st ++ [LogClientDisconnected; LogStoppedAbort] /\
  statusCode (res st') = 200 /\
  endCalls (res st') = 1 /\
  forall evs',
    body (res (run evs' st')) = body (res st) /\
    writeCalls (run evs' st') = writeCalls st /\
    delayCalls (run evs' st') = delayCalls st /\
    problem_docs (body (res (run evs' st'))) = [] /\
    (forall e, In (LogStreamingError e) (log (run evs' st')) ->
               In (LogStreamingError e) (log st)).
Proof.
  intros Ht Hev st st'. subst st st'.
  pose proof (Inv_reachable evs) as HI.
  destruct (Inv_delay _ i HI Ht) as [Hst Hi].
  set (s := run evs open) in *. clearbody s.
  set (lg := log s) in Hst. set (dc := delayCalls s) in Hst.
  clearbody lg dc. subst s.
  assert (HI' : Inv (step (delay_state i lg dc) ev))
    by (apply Inv_step; assumption).
  assert (Hstep : exists c,
             step (delay_state i lg dc) ev =
             finished ExitAbortError i true c true
               (lg ++ [LogClientDisconnected; LogStoppedAbort])
               (seq_run i) dc).
  { destruct ev; try discriminate.
    - exists false. apply step_delay_req_close.
    - exists true. apply step_delay_conn_closed. }
  destruct Hstep as [c Hstep].
  rewrite Hstep in *. simpl. repeat split; auto.
  - apply (done_run evs' _ ExitAbortError HI' eq_refl).
  - apply (done_run evs' _ ExitAbortError HI' eq_refl).
  - apply (done_run evs' _ ExitAbortError HI' eq_refl).
  - destruct (done_run evs' _ ExitAbortError HI' eq_refl) as (_ & -> & _).
    simpl. apply problem_docs_lines.
  - intros e Hin.
    destruct (done_run evs' _ ExitAbortError HI' eq_refl)
      as (_ & _ & _ & _ & _ & _ & Hlg).
    apply Hlg in Hin. simpl in Hin.
    apply in_app_or in Hin. destruct Hin as [Hin | [Hin | [Hin | []]]];
      [assumption | discriminate | discriminate].
Qed.

(** ** Faults *)

(** The turn in which the environment injects a fault that is not named
    [AbortError]: the [catch] block of lines 224-229. *)
Lemma step_delay_fault (i : nat) (e : js_error) lg dc :
  fault_at i = Some e -> name e <> "AbortError" ->
  exists wc,
    step (delay_state i lg dc) EvTimer =
    failed e i false false false lg wc dc /\
    (wc = seq_run i \/ wc = seq_run (S i)).
Proof.
  intros Hf Hn. apply String.eqb_neq in Hn.
  rewrite step_delay_timer, after_delay_ready.
  unfold fault_at in Hf.
  destruct (construct_fault R i) as [e1|].
  { inversion Hf; subst. exists (seq_run i). split; [|auto].
    unfold ready_state. rewrite catch_handler_running, Hn. reflexivity. }
  destruct (stringify_fault R i) as [e2|].
  { inversion Hf; subst. exists (seq_run i). split; [|auto].
    unfold ready_state. rewrite catch_handler_running, Hn. reflexivity. }
  destruct (write_result R i) as [| |e3]; try discriminate.
  inversion Hf; subst. exists (seq_run (S i)). split; [|auto].
  unfold note_write, ready_state; simpl. rewrite <- seq_run_S.
  rewrite catch_handler_running, Hn. reflexivity.
Qed.

(** C3, as the code has it: a fault after the first byte is logged, the
    status line and the content type that went out with the first byte
    stay as they were sent and so do the records written, and the [catch]
    block, finding the response not yet ended, ends it with the problem
    document as a last chunk behind the records. *)
Theorem C3_fault_after_first_byte_appends_problem (evs : list event)
    (i : nat) (e : js_error) :
  task_of (run evs open) = TDelay i ->
  headersSent (res (run evs open)) = true ->
  fault_at i = Some e ->
  name e <> "AbortError" ->
  let st := run evs open in
  let st' := step st EvTimer in
  record_seqs (body (res st)) <> [] /\
  task_of st' = TDone (ExitFault e) /\
  outcome_of (ExitFault e) = FAILED /\
  log st' = log st ++ [LogStreamingError e] /\
  wireHead (res st') = Some (200, Ndjson) /\
  wireHead (res st') = wireHead (res st) /\
  record_seqs (body (res st')) = record_seqs (body (res st)) /\
  body (res st') = body (res st) ++ [ProblemDoc (stream_problem e)] /\
  p_status (stream_problem e) = 500 /\
  writableEnded (res st') = true /\
  endCalls (res st') = 1.
Proof.
  intros Ht Hh Hf Hn st st'. subst st st'.
  pose proof (Inv_reachable evs) as HI.
  destruct (Inv_delay _ i HI Ht) as [Hst Hi].
  set (s := run evs open) in *. clearbody s.
  set (lg := log s) in Hst. set (dc := delayCalls s) in Hst.
  clearbody lg dc. subst s.
  destruct (step_delay_fault i e lg dc Hf Hn) as (wc & Hstep & _).
  rewrite Hstep. simpl in Hh. simpl. rewrite Hh.
  rewrite record_seqs_app, record_seqs_lines. simpl. rewrite app_nil_r.
  repeat split; auto.
  apply Nat.ltb_lt in Hh. destruct i as [|i]; [lia|].
  rewrite seq_run_S. intros H. symmetry in H. apply app_cons_not_nil in H.
  exact H.
Qed.

(** C9: a fault before any byte went out gives the client one problem
    document with status 500 and content type [application/problem+json]
    and no record line, then and ever after. *)
Theorem C9_fault_before_first_byte_is_500_document (evs : list event)
    (i : nat) (e : js_error) :
  task_of (run evs open) = TDelay i ->
  headersSent (res (run evs open)) = false ->
  fault_at i = Some e ->
  name e <> "AbortError" ->
  let st' := step (run evs open) EvTimer in
  task_of st' = TDone (ExitFault e) /\
  outcome_of (ExitFault e) = FAILED /\
  wireHead (res st') = Some (500, ProblemJson) /\
  p_status (stream_problem e) = 500 /\
  writableEnded (res st') = true /\
  endCalls (res st') = 1 /\
  forall evs',
    body (res (run evs' st')) = [ProblemDoc (stream_problem e)] /\
    record_seqs (body (res (run evs' st'))) = [].
Proof.
  intros Ht Hh Hf Hn st'. subst st'.
  pose proof (Inv_reachable evs) as HI.
  assert (HI' : Inv (step (run evs open) EvTimer))
    by (apply Inv_step; assumption).
  destruct (Inv_delay _ i HI Ht) as [Hst Hi].
  set (s := run evs open) in *. clearbody s.
  set (lg := log s) in Hst. set (dc := delayCalls s) in Hst.
  clearbody lg dc. subst s.
  destruct (step_delay_fault i e lg dc Hf Hn) as (wc & Hstep & _).
  rewrite Hstep in *. simpl in Hh. simpl. rewrite Hh.
  apply Nat.ltb_ge in Hh. assert (i = 0) by lia. subst i.
  repeat split; auto.
  - destruct (done_run evs' _ (ExitFault e) HI' eq_refl) as (_ & -> & _).
    simpl. rewrite lines_0. reflexivity.
  - destruct (done_run evs' _ (ExitFault e) HI' eq_refl) as (_ & -> & _).
    simpl. rewrite lines_0. reflexivity.
Qed.

(** ** Backpressure *)

(** Which turns call [res.write]: only the timer turn of a session
    suspended in [delay], and then once. *)
Lemma step_writeCalls (st : session) (ev : event) :
  Inv st ->
  writeCalls (step st ev) = writeCalls st \/
  exists j, task_of st = TDelay j /\ ev = EvTimer /\
            writeCalls (step st ev) = writeCalls st ++ [j + 1].
Proof.
  intros HI. destruct (task_of st) as [i | i | x] eqn:Ht.
  - destruct (Inv_delay st i HI Ht) as [Hst Hi].
    set (lg := log st) in Hst. set (dc := delayCalls st) in Hst.
    clearbody lg dc. subst st. destruct ev.
    + rewrite step_delay_timer, after_delay_ready.
      unfold ready_state.
      destruct (construct_fault R i).
      { left. rewrite catch_handler_running.
        destruct (String.eqb (name j) "AbortError"); reflexivity. }
      destruct (stringify_fault R i).
      { left. rewrite catch_handler_running.
        destruct (String.eqb (name j) "AbortError"); reflexivity. }
      right. exists i. split; [reflexivity|]. split; [reflexivity|].
      destruct (write_result R i).
      * destruct (Nat.ltb (S i) count); simpl; apply seq_run_S.
      * simpl; apply seq_run_S.
      * unfold note_write; simpl. rewrite catch_handler_running.
        destruct (String.eqb (name e) "AbortError"); reflexivity.
    + left. rewrite step_delay_other by auto. reflexivity.
    + left. rewrite step_delay_req_close. reflexivity.
    + left. rewrite step_delay_conn_closed. reflexivity.
    + left. rewrite step_delay_other by auto. reflexivity.
  - left. destruct (Inv_drain st i HI Ht) as [Hst Hi].
    set (a := aborted st) in Hst.
    set (lg := log st) in Hst. set (dc := delayCalls st) in Hst.
    clearbody a lg dc. subst st. destruct ev.
    + rewrite step_drain_other by auto. reflexivity.
    + rewrite step_drain_drain, gen_loop_resumed.
      destruct (Nat.ltb (S i) count); [destruct a|]; reflexivity.
    + rewrite step_drain_req_close. reflexivity.
    + rewrite step_drain_conn_closed, gen_loop_resumed.
      destruct (Nat.ltb (S i) count); reflexivity.
    + rewrite step_drain_other by auto. reflexivity.
  - left. destruct HI as (Hp & Hd & HT). rewrite Ht in HT.
    destruct HT as (Hl & Htm & Hwe & Hec & Hdl & Hcl & _).
    apply (done_frame st ev x Hp Htm Hl Hdl Hcl Ht).
Qed.

(** While the wait for capacity lasts, nothing but ['drain'] brings the
    loop back to a write. *)
Lemma drain_wait_no_write (evs : list event) (i : nat) (a : bool) lg dc :
  i < count -> Forall (fun b => b = false) dc ->
  ~ In EvDrain evs ->
  writeCalls (run evs (drain_state i a lg dc)) = seq_run (S i).
Proof.
  intros Hi Hd. revert a lg.
  induction evs as [|ev evs IH]; intros a lg Hn; [reflexivity|].
  simpl. assert (Hn' : ~ In EvDrain evs) by (intros H; apply Hn; right; exact H).
  destruct ev.
  - rewrite step_drain_other by auto. apply IH, Hn'.
  - exfalso. apply Hn. left. reflexivity.
  - rewrite step_drain_req_close. apply IH, Hn'.
  - rewrite step_drain_conn_closed.
    assert (HI : Inv (gen_loop (S i)
                        (resumed_state i true true
                           (if a then lg else lg ++ [LogClientDisconnected])
                           dc)))
      by (apply Inv_gen_loop; auto; discriminate).
    revert HI. rewrite gen_loop_resumed.
    destruct (Nat.ltb (S i) count); intros HI.
    + apply (done_run evs _ ExitSignalBreak HI eq_refl).
    + apply (done_run evs _ ExitExhausted HI eq_refl).
  - rewrite step_drain_other by auto. apply IH, Hn'.
Qed.

(** The wait for capacity is entered by a saturated write and by nothing
    else. *)
Lemma step_drain_after_saturated (st : session) (ev : event) :
  Inv st ->
  (forall i, task_of st = TDrain i -> write_result R i = Saturated) ->
  forall i, task_of (step st ev) = TDrain i -> write_result R i = Saturated.
Proof.
  intros HI Hsat i. destruct (task_of st) as [j | j | x] eqn:Ht.
  - destruct (Inv_delay st j HI Ht) as [Hst Hj].
    set (lg := log st) in Hst. set (dc := delayCalls st) in Hst.
    clearbody lg dc. subst st. destruct ev.
    + rewrite step_delay_timer, after_delay_ready. unfold ready_state.
      destruct (construct_fault R j).
      { rewrite catch_handler_running.
        destruct (String.eqb (name j0) "AbortError"); discriminate. }
      destruct (stringify_fault R j).
      { rewrite catch_handler_running.
        destruct (String.eqb (name j0) "AbortError"); discriminate. }
      destruct (write_result R j) eqn:Hw.
      * destruct (Nat.ltb (S j) count); discriminate.
      * simpl. intros H. inversion H; subst. exact Hw.
      * unfold note_write; simpl. rewrite catch_handler_running.
        destruct (String.eqb (name e) "AbortError"); discriminate.
    + rewrite step_delay_other by auto. discriminate.
    + rewrite step_delay_req_close. discriminate.
    + rewrite step_delay_conn_closed. discriminate.
    + rewrite step_delay_other by auto. discriminate.
  - destruct (Inv_drain st j HI Ht) as [Hst Hj].
    specialize (Hsat j eq_refl).
    set (a := aborted st) in Hst.
    set (lg := log st) in Hst. set (dc := delayCalls st) in Hst.
    clearbody a lg dc. subst st. destruct ev.
    + rewrite step_drain_other by auto. simpl. intros H.
      inversion H; subst. exact Hsat.
    + rewrite step_drain_drain, gen_loop_resumed.
      destruct (Nat.ltb (S j) count); [destruct a|]; discriminate.
    + rewrite step_drain_req_close. simpl. intros H.
      inversion H; subst. exact Hsat.
    + rewrite step_drain_conn_closed, gen_loop_resumed.
      destruct (Nat.ltb (S j) count); discriminate.
    + rewrite step_drain_other by auto. simpl. intros H.
      inversion H; subst. exact Hsat.
  - destruct HI as (Hp & Hd & HT). rewrite Ht in HT.
    destruct HT as (Hl & Htm & Hwe & Hec & Hdl & Hcl & _).
    destruct (done_frame st ev x Hp Htm Hl Hdl Hcl Ht) as (_ & _ & _ & F4 & _).
    rewrite F4. discriminate.
Qed.

Lemma drain_after_saturated (evs : list event) (i : nat) :
  task_of (run evs open) = TDrain i -> write_result R i = Saturated.
Proof.
  assert (H : forall st, Inv st ->
                (forall j, task_of st = TDrain j ->
                           write_result R j = Saturated) ->
                forall j, task_of (run evs st) = TDrain j ->
                          write_result R j = Saturated).
  { induction evs as [|ev evs' IH]; intros st HI Hs; [exact Hs|].
    simpl. apply IH; [apply Inv_step, HI|].
    apply step_drain_after_saturated; assumption. }
  apply H; [apply Inv_open|].
  intros j. unfold open, start, gen_loop.
  destruct (Nat.ltb 0 count); simpl; discriminate.
Qed.

(** The turn of a write that the transport reports saturated: the call is
    made, the line is taken, and the async function is left waiting for
    capacity. *)
Lemma step_delay_saturated (i : nat) lg dc :
  construct_fault R i = None -> stringify_fault R i = None ->
  write_result R i = Saturated ->
  step (delay_state i lg dc) EvTimer = drain_state i false lg dc.
Proof.
  intros Hc Hs Hw. rewrite step_delay_timer, after_delay_ready, Hc, Hs, Hw.
  reflexivity.
Qed.

(** C4: a write that reports saturation leaves the async function waiting
    for capacity, and from then on no call of [res.write] is made as long
    as ['drain'] has not come, whatever else happens; the wait is entered
    by a saturated write and by nothing else, with that write the last one
    made; and in general a call of [res.write] is only ever made by the
    timer turn of a session suspended in [delay], one call for the next
    item, so never while the wait that the previous write caused is still
    on. *)
Theorem C4_no_write_until_drained (evs : list event) :
  let st := run evs open in
  (forall i,
      task_of st = TDelay i ->
      construct_fault R i = None -> stringify_fault R i = None ->
      write_result R i = Saturated ->
      writeCalls (step st EvTimer) = writeCalls st ++ [i + 1] /\
      task_of (step st EvTimer) = TDrain i /\
      forall evs', ~ In EvDrain evs' ->
                   writeCalls (run evs' (step st EvTimer)) =
                   writeCalls (step st EvTimer)) /\
  (forall i, task_of st = TDrain i ->
             write_result R i = Saturated /\
             writeCalls st = List.seq 1 (S i)) /\
  (forall i evs', task_of st = TDrain i -> ~ In EvDrain evs' ->
                  writeCalls (run evs' st) = writeCalls st) /\
  (forall ev, writeCalls (step st ev) <> writeCalls st ->
              exists j, task_of st = TDelay j /\ ev = EvTimer /\
                        writeCalls st = List.seq 1 j /\
                        writeCalls (step st ev) = List.seq 1 (S j)).
Proof.
  intros st. subst st. pose proof (Inv_reachable evs) as HI.
  assert (Hd : Forall (fun b => b = false) (delayCalls (run evs open)))
    by apply HI.
  split; [|split; [|split]].
  - intros i Ht Hc Hs Hw.
    destruct (Inv_delay _ i HI Ht) as [Hst Hi].
    rewrite Hst. rewrite (step_delay_saturated i _ _ Hc Hs Hw). simpl.
    split; [apply seq_run_S|]. split; [reflexivity|].
    intros evs' Hn. apply drain_wait_no_write; auto.
  - intros i Ht. split; [apply (drain_after_saturated evs i Ht)|].
    destruct (Inv_drain _ i HI Ht) as [Hst _]. rewrite Hst. reflexivity.
  - intros i evs' Ht Hn.
    destruct (Inv_drain _ i HI Ht) as [Hst Hi].
    rewrite Hst. rewrite drain_wait_no_write; auto.
  - intros ev Hne.
    destruct (step_writeCalls _ ev HI) as [H | (j & Ht & Hev & Hw)];
      [contradiction|].
    assert (Hwc : writeCalls (run evs open) = seq_run j).
    { destruct (Inv_delay _ j HI Ht) as [Hst _]. rewrite Hst. reflexivity. }
    exists j. repeat split; auto.
    rewrite Hw, Hwc, <- seq_run_S. reflexivity.
Qed.

(** C5: when the connection closes while the writer waits for capacity,
    the wait resolves, the loop finds the signal aborted (or the items
    used up) and leaves without a throw, [endStream] closes the response,
    [res.end] is called once, and no call of [res.write] follows, then or
    ever after. *)
Theorem C5_abandoned_wait_ends_once_without_writes (evs : list event)
    (i : nat) :
  task_of (run evs open) = TDrain i ->
  let st := run evs open in
  let st' := step st EvConnClosed in
  (task_of st' = TDone ExitSignalBreak \/ task_of st' = TDone ExitExhausted) /\
  aborted st' = true /\
  ended st' = true /\
  endCalls (res st) = 0 /\
  forall evs',
    endCalls (res (run evs' st')) = 1 /\
    writeCalls (run evs' st') = writeCalls st /\
    body (res (run evs' st')) = body (res st).
Proof.
  intros Ht st st'. subst st st'.
  pose proof (Inv_reachable evs) as HI.
  assert (HI' : Inv (step (run evs open) EvConnClosed))
    by (apply Inv_step; assumption).
  destruct (Inv_drain _ i HI Ht) as [Hst Hi].
  set (s := run evs open) in *. clearbody s.
  set (a := aborted s) in Hst.
  set (lg := log s) in Hst. set (dc := delayCalls s) in Hst.
  clearbody a lg dc. subst s.
  revert HI'. rewrite step_drain_conn_closed, gen_loop_resumed.
  destruct (Nat.ltb (S i) count); intros HI'; simpl.
  - repeat split; auto;
      apply (done_run evs' _ ExitSignalBreak HI' eq_refl).
  - repeat split; auto;
      apply (done_run evs' _ ExitExhausted HI' eq_refl).
Qed.

(** What stops the loop after an abandoned wait is the aborted signal, not
    [onClose] itself: [onClose] only resolves the wait, and on a signal
    still active the generator would go on to its next delay. *)
Remark onClose_only_resolves_the_wait (i : nat) lg dc :
  S i < count ->
  resume (emit_res_close (drain_state i false lg dc)) =
  mkSession (AbortSignal.mk false [S i]) (running_res (S i) false true) false
    true false (Some intervalMs) (TDelay (S i)) None lg (seq_run (S i))
    (dc ++ [false]).
Proof.
  intros Hlt. apply Nat.ltb_lt in Hlt.
  change (resume (emit_res_close (drain_state i false lg dc)))
    with (gen_loop (S i) (resumed_state i false true lg dc)).
  rewrite gen_loop_resumed, Hlt. reflexivity.
Qed.

(** ** [endStream] *)






(** ** The cancellation signal *)

Lemma signal_apply_aborted (o : AbortSignal.op) (s : AbortSignal.t) :
  AbortSignal.aborted s = true ->
  AbortSignal.aborted (fst (AbortSignal.apply o s)) = true /\
  snd (AbortSignal.apply o s) = [].
Proof.
  intros Ha. destruct o as [|cb|cb]; simpl.
  - unfold AbortSignal.abort. rewrite Ha. auto.
  - unfold AbortSignal.addEventListener.
    destruct (existsb (Nat.eqb cb) (AbortSignal.listeners s)); auto.
  - auto.
Qed.

Lemma signal_run_aborted (ops : list AbortSignal.op) (s : AbortSignal.t) :
  AbortSignal.aborted s = true ->
  AbortSignal.aborted (fst (AbortSignal.run ops s)) = true /\
  snd (AbortSignal.run ops s) = [].
Proof.
  revert s. induction ops as [|o ops IH]; intros s Ha; simpl; [auto|].
  destruct (signal_apply_aborted o s Ha) as [Ha1 Hf1].
  destruct (AbortSignal.apply o s) as [s1 f1]; simpl in *.
  destruct (IH s1 Ha1) as [Ha2 Hf2].
  destruct (AbortSignal.run ops s1) as [s2 f2]; simpl in *.
  subst. auto.
Qed.

Lemma signal_apply_NoDup (o : AbortSignal.op) (s : AbortSignal.t) :
  NoDup (AbortSignal.listeners s) ->
  NoDup (AbortSignal.listeners (fst (AbortSignal.apply o s))).
Proof.
  intros Hn. destruct o as [|cb|cb]; simpl.
  - unfold AbortSignal.abort. destruct (AbortSignal.aborted s); exact Hn.
  - unfold AbortSignal.addEventListener.
    destruct (existsb (Nat.eqb cb) (AbortSignal.listeners s)) eqn:He;
      [exact Hn|].
    simpl. apply NoDup_app; [exact Hn | repeat constructor; intros [] |].
    intros x Hx [Hc | []]. subst x.
    assert (existsb (Nat.eqb cb) (AbortSignal.listeners s) = true).
    { apply existsb_exists. exists cb. split; [exact Hx|].
      apply Nat.eqb_refl. }
    congruence.
  - apply NoDup_filter, Hn.
Qed.

Lemma signal_fired_quiet (o : AbortSignal.op) (s : AbortSignal.t) :
  AbortSignal.aborted (fst (AbortSignal.apply o s)) = false ->
  snd (AbortSignal.apply o s) = [].
Proof.
  destruct o as [|cb|cb]; simpl; auto.
  unfold AbortSignal.abort. destruct (AbortSignal.aborted s); simpl; auto.
  discriminate.
Qed.

Lemma signal_run_fired (ops : list AbortSignal.op) (s : AbortSignal.t) :
  NoDup (AbortSignal.listeners s) ->
  NoDup (AbortSignal.listeners (fst (AbortSignal.run ops s))) /\
  NoDup (snd (AbortSignal.run ops s)) /\
  (AbortSignal.aborted (fst (AbortSignal.run ops s)) = false ->
   snd (AbortSignal.run ops s) = []).
Proof.
  revert s. induction ops as [|o ops IH]; intros s Hn; simpl.
  { repeat split; [exact Hn | constructor]. }
  pose proof (signal_apply_NoDup o s Hn) as Hn1.
  assert (Hf1 : NoDup (snd (AbortSignal.apply o s))).
  { destruct o; simpl; try constructor.
    unfold AbortSignal.abort. destruct (AbortSignal.aborted s); simpl;
      [constructor | exact Hn]. }
  pose proof (signal_fired_quiet o s) as Hq.
  pose proof (signal_run_aborted ops (fst (AbortSignal.apply o s))) as Hab.
  destruct (AbortSignal.apply o s) as [s1 f1]; simpl in *.
  destruct (IH s1 Hn1) as (Hn2 & Hf2 & Hq2).
  destruct (AbortSignal.run ops s1) as [s2 f2]; simpl in *.
  split; [exact Hn2|].
  destruct (AbortSignal.aborted s1) eqn:Ha1.
  - destruct (Hab eq_refl) as [Ha2 ->]. rewrite app_nil_r.
    split; [exact Hf1|]. intros H. congruence.
  - rewrite (Hq eq_refl). simpl. split; [exact Hf2 | exact Hq2].
Qed.

Lemma step_aborted_mono (st : session) (ev : event) :
  Inv st -> aborted st = true -> aborted (step st ev) = true.
Proof.
  intros HI Ha. destruct (task_of st) as [i | i | x] eqn:Ht.
  - destruct (Inv_delay st i HI Ht) as [Hst _]. rewrite Hst in Ha.
    discriminate.
  - destruct (Inv_drain st i HI Ht) as [Hst Hi].
    rewrite Ha in Hst.
    set (lg := log st) in Hst. set (dc := delayCalls st) in Hst.
    clearbody lg dc. subst st. destruct ev.
    + rewrite step_drain_other by auto. reflexivity.
    + rewrite step_drain_drain, gen_loop_resumed.
      destruct (Nat.ltb (S i) count); reflexivity.
    + rewrite step_drain_req_close. reflexivity.
    + rewrite step_drain_conn_closed, gen_loop_resumed.
      destruct (Nat.ltb (S i) count); reflexivity.
    + rewrite step_drain_other by auto. reflexivity.
  - destruct HI as (Hp & Hd & HT). rewrite Ht in HT.
    destruct HT as (Hl & Htm & Hwe & Hec & Hdl & Hcl & _).
    apply (done_frame st ev x Hp Htm Hl Hdl Hcl Ht). exact Ha.
Qed.

(** C7, as the code has it: the signal goes from active to aborted and
    never back, in a session as on its own; [abort()] on an aborted
    signal changes nothing and invokes nothing; a callback registered
    while the signal is active is invoked exactly once, in the call of
    [abort()] that makes the transition, and no callback is ever invoked
    twice; a callback registered on an aborted signal is never invoked. *)
Theorem C7_signal_one_way_callbacks_once (ops ops' : list AbortSignal.op)
    (cb : nat) (evs : list event) (ev : event) :
  let s := fst (AbortSignal.run ops AbortSignal.fresh) in
  NoDup (snd (AbortSignal.run ops AbortSignal.fresh)) /\
  (AbortSignal.aborted s = false ->
   snd (AbortSignal.run ops AbortSignal.fresh) = [] /\
   AbortSignal.aborted (fst (AbortSignal.abort s)) = true /\
   (In cb (AbortSignal.listeners s) ->
    count_occ Nat.eq_dec (snd (AbortSignal.abort s)) cb = 1)) /\
  (AbortSignal.aborted s = true ->
   AbortSignal.abort s = (s, []) /\
   AbortSignal.aborted (fst (AbortSignal.run ops' s)) = true /\
   snd (AbortSignal.run ops' s) = []) /\
  (aborted (run evs open) = true ->
   aborted (step (run evs open) ev) = true).
Proof.
  intros s. subst s.
  destruct (signal_run_fired ops AbortSignal.fresh) as (Hn & Hf & Hq);
    [constructor|].
  split; [exact Hf|]. split; [|split].
  - intros Ha. split; [apply Hq, Ha|].
    unfold AbortSignal.abort. rewrite Ha. simpl. split; [reflexivity|].
    intros Hin. apply NoDup_count_occ'; assumption.
  - intros Ha. split.
    + unfold AbortSignal.abort. rewrite Ha. reflexivity.
    + apply signal_run_aborted, Ha.
  - apply step_aborted_mono, Inv_reachable.
Qed.

(** ** A stream nobody cancels *)

Lemma fault_free_at (i : nat) :
  fault_free ->
  construct_fault R i = None /\ stringify_fault R i = None /\
  (write_result R i = Accepted \/ write_result R i = Saturated).
Proof.
  intros Hf. specialize (Hf i). unfold fault_at in Hf.
  destruct (construct_fault R i); [discriminate|].
  destruct (stringify_fault R i); [discriminate|].
  destruct (write_result R i); [auto | auto | discriminate].
Qed.






Lemma drive_done (fuel : nat) (st : session) (x : exit_path) :
  task_of st = TDone x -> drive fuel st = st.
Proof.
  intros Ht. destruct fuel; [reflexivity|].
  simpl. unfold next_event. rewrite Ht. reflexivity.
Qed.

Lemma drive_S (fuel : nat) (st : session) (ev : event) :
  next_event st = Some ev -> drive (S fuel) st = drive fuel (step st ev).
Proof. intros H. simpl. rewrite H. reflexivity. Qed.

(** With the timers firing and the transport draining, the loop gets
    through the items that are left. *)
Lemma drive_completes (n : nat) :
  fault_free ->
  forall fuel i lg dc,
    i + S n = count -> 2 * S n <= fuel ->
    exists dc',
      drive fuel (delay_state i lg dc) =
      finished ExitExhausted count false false false lg (seq_run count) dc'.
Proof.
  intros Hf. induction n as [|n IH]; intros fuel i lg dc Hi Hfuel.
  - destruct fuel as [|[|fuel]]; try lia.
    assert (Hlt : Nat.ltb (S i) count = false) by (apply Nat.ltb_ge; lia).
    assert (Hc : S i = count) by lia.
    rewrite (drive_S _ _ EvTimer) by reflexivity.
    rewrite step_delay_timer, after_delay_ready.
    destruct (fault_free_at i Hf) as (-> & -> & [-> | ->]).
    + rewrite Hlt, Hc. exists dc. eapply drive_done. reflexivity.
    + rewrite (drive_S _ _ EvDrain) by reflexivity.
      rewrite step_drain_drain, gen_loop_resumed, Hlt, Hc.
      exists dc. eapply drive_done. reflexivity.
  - destruct fuel as [|[|fuel]]; try lia.
    assert (Hlt : Nat.ltb (S i) count = true) by (apply Nat.ltb_lt; lia).
    rewrite (drive_S _ _ EvTimer) by reflexivity.
    rewrite step_delay_timer, after_delay_ready.
    destruct (fault_free_at i Hf) as (-> & -> & [-> | ->]).
    + rewrite Hlt. apply IH; lia.
    + rewrite (drive_S _ _ EvDrain) by reflexivity.
      rewrite step_drain_drain, gen_loop_resumed, Hlt.
      apply (IH fuel (S i) lg (dc ++ [false])); lia.
Qed.

Lemma open_eq :
  open = if Nat.ltb 0 count then delay_state 0 [] [false]
         else finished ExitExhausted 0 false false false [] (seq_run 0) [].
Proof.
  exact (gen_loop_running 0 false false false (TDone ExitExhausted)
           [] [] []).
Qed.

Lemma drive_open :
  fault_free ->
  exists dc',
    drive (2 * count) open =
    finished ExitExhausted count false false false [] (seq_run count) dc'.
Proof.
  intros Hf. rewrite open_eq.
  destruct count as [|n] eqn:Hc.
  - exists []. reflexivity.
  - change (Nat.ltb 0 (S n)) with true. cbv iota.
    rewrite <- Hc. apply (drive_completes n Hf); lia.
Qed.

(** ** The pre-abort branch of [delay] *)

Lemma gen_loop_delayCalls (j : nat) (st : session) :
  delayCalls (gen_loop j st) = delayCalls st \/
  (aborted st = false /\
   delayCalls (gen_loop j st) = delayCalls st ++ [false]).
Proof.
  unfold gen_loop. destruct (Nat.ltb j count).
  - destruct (aborted st) eqn:Ha.
    + left. unfold loop_exit, endStream. destruct (ended st); reflexivity.
    + right. split; [reflexivity|].
      unfold delay, aborted in *. simpl. rewrite Ha. reflexivity.
  - left. unfold loop_exit, endStream. destruct (ended st); reflexivity.
Qed.

(** C10: the generator calls [delay] only after finding the signal not
    aborted, in the same turn; so at every call of [delay] in every
    session the signal is not aborted, the throw of line 161 is never
    taken, and a session that ends in the fault branch of the [catch]
    block does so for a fault that came from outside.  (Had the plain
    [Error('aborted')] reached the [catch] block, it would have been
    handled as a fault, not as a cancellation.) *)
Theorem C10_delay_never_called_on_aborted_signal (evs : list event) :
  (forall j st,
      delayCalls (gen_loop j st) = delayCalls st \/
      (aborted st = false /\
       delayCalls (gen_loop j st) = delayCalls st ++ [false])) /\
  Forall (fun b => b = false) (delayCalls (run evs open)) /\
  (forall ms cb st e st',
      delay ms cb st = DelayThrew e st' -> aborted st = true) /\
  (forall e, task_of (run evs open) = TDone (ExitFault e) ->
             exists k, injected k e) /\
  (forall st, task_of (catch_handler plainAborted st) =
              TDone (ExitFault plainAborted)).
Proof.
  split; [exact gen_loop_delayCalls|].
  split; [apply (Inv_reachable evs)|].
  split; [|split].
  - intros ms cb st e st' H. unfold delay, aborted in *. simpl in H.
    destruct (AbortSignal.aborted (sig st)); [reflexivity | discriminate].
  - intros e Ht. destruct (Inv_reachable evs) as (_ & _ & HT).
    rewrite Ht in HT.
    destruct HT as (_ & _ & _ & _ & _ & _ & k & _ & Hok).
    exists k. apply Hok.
  - intros st. reflexivity.
Qed.

(** ** More about the session *)

Lemma length_lines (k : nat) : List.length (lines k) = k.
Proof.
  induction k as [|k IH]; [rewrite lines_0; reflexivity|].
  rewrite lines_S, length_app, IH. simpl. lia.
Qed.

(** For any number of items: a session without fault whose client stays
    gets through all of them within two events per item, writes exactly
    that many record lines, 1 to [count], logs nothing and ends the
    response once. *)
Theorem stream_runs_to_completion :
  fault_free ->
  let st := drive (2 * count) open in
  task_of st = TDone ExitExhausted /\
  record_seqs (body (res st)) = List.seq 1 count /\
  List.length (body (res st)) = count /\
  problem_docs (body (res st)) = [] /\
  wireHead (res st) = Some (200, Ndjson) /\
  endCalls (res st) = 1 /\
  aborted st = false /\
  log st = [].
Proof.
  intros Hf st. subst st. destruct (drive_open Hf) as (dc' & ->). simpl.
  rewrite record_seqs_lines, length_lines, problem_docs_lines, seq_run_eq.
  repeat split.
Qed.

(** At every moment the body of the response is the record lines of the
    first [k] items, as line 175 builds them and in order, followed by the
    problem document in a session that failed and by nothing otherwise;
    [k] is the number of the iteration during its delay, one more during
    the wait for capacity after its write, and the item count after
    exhaustion; and once the async function is over the body stays as it
    is. *)
Theorem body_is_records_then_problem (evs evs' : list event) :
  let st := run evs open in
  exists k, k <= count /\
    body (res st) =
      lines k ++ match task_of st with
                 | TDone (ExitFault e) => [ProblemDoc (stream_problem e)]
                 | _ => []
                 end /\
    match task_of st with
    | TDelay i => k = i
    | TDrain i => k = S i
    | TDone ExitExhausted => k = count
    | TDone _ => True
    end /\
    match task_of st with
    | TDone _ => body (res (run evs' st)) = body (res st)
    | _ => True
    end.
Proof.
  intros st. subst st. pose proof (Inv_reachable evs) as HI.
  destruct (task_of (run evs open)) as [i | i | x] eqn:Ht.
  - destruct (Inv_delay _ i HI Ht) as [-> Hi]. exists i. simpl.
    rewrite app_nil_r. repeat split; auto. lia.
  - destruct (Inv_drain _ i HI Ht) as [-> Hi]. exists (S i). simpl.
    rewrite app_nil_r. repeat split; auto.
  - pose proof (done_run evs' _ x HI Ht) as Hrun. cbv zeta in Hrun.
    destruct Hrun as (_ & Hb & _).
    destruct HI as (_ & _ & HT). rewrite Ht in HT.
    destruct HT as (_ & _ & _ & _ & _ & _ & k & Hk & Hok).
    exists k. split; [exact Hk|].
    destruct x; simpl in Hok.
    + destruct Hok as (Hc & _ & Hbody & _).
      split; [rewrite Hbody, app_nil_r; reflexivity|]. split; assumption.
    + destruct Hok as (_ & _ & Hbody & _).
      split; [rewrite Hbody, app_nil_r; reflexivity|]. split; auto.
    + contradiction.
    + destruct Hok as (_ & _ & Hbody & _).
      split; [rewrite Hbody, app_nil_r; reflexivity|]. split; auto.
    + destruct Hok as (_ & _ & _ & _ & Hbody & _).
      split; [rewrite Hbody; reflexivity|]. split; auto.
Qed.

(** At every moment only the listeners of the wait in progress are
    registered: a timer and one abort listener during the delay, the drain
    and close listeners during the wait for capacity, and nothing once the
    async function is over, when [res.end] has been called exactly once. *)
Theorem listeners_follow_the_wait (evs : list event) :
  let st := run evs open in
  pending st = None /\
  match task_of st with
  | TDelay i =>
      timer st = Some intervalMs /\ AbortSignal.listeners (sig st) = [i] /\
      drainL (res st) = false /\ closeL (res st) = false /\
      writableEnded (res st) = false /\ endCalls (res st) = 0
  | TDrain _ =>
      timer st = None /\ AbortSignal.listeners (sig st) = [] /\
      drainL (res st) = true /\ closeL (res st) = true /\
      writableEnded (res st) = false /\ endCalls (res st) = 0
  | TDone _ =>
      timer st = None /\ AbortSignal.listeners (sig st) = [] /\
      drainL (res st) = false /\ closeL (res st) = false /\
      writableEnded (res st) = true /\ endCalls (res st) = 1
  end.
Proof.
  intros st. subst st. pose proof (Inv_reachable evs) as HI.
  split; [apply HI|].
  destruct (task_of (run evs open)) as [i | i | x] eqn:Ht.
  - destruct (Inv_delay _ i HI Ht) as [-> _]. repeat split.
  - destruct (Inv_drain _ i HI Ht) as [-> _]. repeat split.
  - destruct HI as (_ & _ & HT). rewrite Ht in HT.
    destruct HT as (Hl & Htm & Hwe & Hec & Hdl & Hcl & _). auto 10.
Qed.

(** The [catch] block tells cancellation from fault by the name of the
    error alone.  A fault thrown while building, serialising or writing an
    item is taken for a cancellation when it is named [AbortError], with
    the signal never aborted: the stream ends silently, with no problem
    document and no error in the log. *)
Theorem fault_named_AbortError_ends_silently (evs : list event) (i : nat)
    (e : js_error) :
  task_of (run evs open) = TDelay i ->
  fault_at i = Some e ->
  name e = "AbortError" ->
  let st := run evs open in
  let st' := step st EvTimer in
  task_of st' = TDone ExitAbortError /\
  aborted st' = false /\
  body (res st') = body (res st) /\
  problem_docs (body (res st')) = [] /\
  wireHead (res st') = Some (200, Ndjson) /\
  log st' = log st ++ [LogStoppedAbort] /\
  endCalls (res st') = 1.
Proof.
  intros Ht Hf Hn st st'. subst st st'.
  pose proof (Inv_reachable evs) as HI.
  destruct (Inv_delay _ i HI Ht) as [Hst Hi].
  set (s := run evs open) in *. clearbody s.
  set (lg := log s) in Hst. set (dc := delayCalls s) in Hst.
  clearbody lg dc. subst s.
  assert (He : String.eqb (name e) "AbortError" = true)
    by (apply String.eqb_eq; exact Hn).
  rewrite step_delay_timer, after_delay_ready. unfold fault_at in Hf.
  unfold ready_state.
  destruct (construct_fault R i) as [e1|].
  { inversion Hf; subst. rewrite catch_handler_running, He. simpl.
    rewrite problem_docs_lines. repeat split. }
  destruct (stringify_fault R i) as [e2|].
  { inversion Hf; subst. rewrite catch_handler_running, He. simpl.
    rewrite problem_docs_lines. repeat split. }
  destruct (write_result R i) as [| |e3]; try discriminate.
  inversion Hf; subst. unfold note_write; simpl.
  rewrite catch_handler_running, He. simpl.
  rewrite problem_docs_lines. repeat split.
Qed.

(** The wait for capacity listens to [res] only.  While neither ['drain']
    nor the closing of the connection comes, the async function stays
    suspended and the response open, even when ['close'] on [req] has
    aborted the signal meanwhile. *)
Lemma drain_wait_stays (evs : list event) (i : nat) (a : bool) lg dc :
  Forall (fun ev => ev <> EvDrain /\ ev <> EvConnClosed) evs ->
  exists a' lg',
    run evs (drain_state i a lg dc) = drain_state i a' lg' dc /\
    (a = true \/ In EvReqClose evs -> a' = true).
Proof.
  revert a lg. induction evs as [|ev evs IH]; intros a lg Hall.
  - exists a, lg. split; [reflexivity|]. intros [H | []]. exact H.
  - inversion Hall as [|ev' evs' [Hd Hc] Hall']; subst. simpl.
    destruct ev; try congruence.
    + rewrite step_drain_other by auto.
      destruct (IH a lg Hall') as (a' & lg' & Hr & Ha).
      exists a', lg'. split; [exact Hr|].
      intros [H | [H | H]]; [auto | discriminate | auto].
    + rewrite step_drain_req_close.
      destruct (IH true (if a then lg else lg ++ [LogClientDisconnected])
                  Hall') as (a' & lg' & Hr & Ha).
      exists a', lg'. split; [exact Hr|]. intros _. auto.
    + rewrite step_drain_other by auto.
      destruct (IH a lg Hall') as (a' & lg' & Hr & Ha).
      exists a', lg'. split; [exact Hr|].
      intros [H | [H | H]]; [auto | discriminate | auto].
Qed.

Theorem backpressure_wait_ignores_the_signal (evs evs' : list event)
    (i : nat) :
  task_of (run evs open) = TDrain i ->
  Forall (fun ev => ev <> EvDrain /\ ev <> EvConnClosed) evs' ->
  let st' := run evs' (run evs open) in
  task_of st' = TDrain i /\
  writableEnded (res st') = false /\
  endCalls (res st') = 0 /\
  writeCalls st' = writeCalls (run evs open) /\
  (In EvReqClose evs' -> aborted st' = true).
Proof.
  intros Ht Hall st'. subst st'.
  pose proof (Inv_reachable evs) as HI.
  destruct (Inv_drain _ i HI Ht) as [Hst Hi].
  rewrite Hst.
  destruct (drain_wait_stays evs' i (aborted (run evs open))
              (log (run evs open)) (delayCalls (run evs open)) Hall)
    as (a' & lg' & -> & Ha).
  simpl. repeat split. intros Hin. apply Ha. right. exact Hin.
Qed.

(** In a finished session the log only grows by the two entries of the
    ['close'] listeners on [req]. *)
Lemma done_step_log (ev : event) (x : exit_path) a r en mw rc lg wc dc :
  drainL r = false -> closeL r = false ->
  exists l2,
    log (step (mkSession (AbortSignal.mk a []) r en mw rc None (TDone x) None
                 lg wc dc) ev) = lg ++ l2 /\
    Forall (fun entry => entry = LogClientDisconnected \/
                         entry = LogClientClosed) l2.
Proof.
  destruct r as [sc ct hs wh bd we ec dl cl rcl]; simpl; intros -> ->.
  destruct ev; unfold step, handle;
    destruct a, mw, rc, rcl, we;
    first [ exists []; split; [rewrite app_nil_r; reflexivity | constructor]
          | eexists; split;
            [reflexivity
            | repeat (apply Forall_cons; [auto|]); apply Forall_nil] ].
Qed.

Lemma step_log_no_stream_aborted (st : session) (ev : event) :
  Inv st ->
  ~ In LogStreamAborted (log st) ->
  ~ In LogStreamAborted (log (step st ev)).
Proof.
  intros HI Hno. destruct (task_of st) as [i | i | x] eqn:Ht.
  - destruct (Inv_delay st i HI Ht) as [Hst Hi].
    set (lg := log st) in *. set (dc := delayCalls st) in Hst.
    clearbody lg dc. subst st.
    assert (Hcatch : forall e wc,
               ~ In LogStreamAborted
                   (log (catch_handler e
                           (mkSession (AbortSignal.mk false [])
                              (running_res i false false) false true false
                              None (TDelay i) None lg wc dc)))).
    { intros e wc. rewrite catch_handler_running.
      destruct (String.eqb (name e) "AbortError"); simpl; intros H;
        apply in_app_or in H; destruct H as [H | [H | []]];
        try discriminate; auto. }
    destruct ev.
    + rewrite step_delay_timer, after_delay_ready. unfold ready_state.
      destruct (construct_fault R i); [apply Hcatch|].
      destruct (stringify_fault R i); [apply Hcatch|].
      destruct (write_result R i).
      * destruct (Nat.ltb (S i) count); exact Hno.
      * exact Hno.
      * unfold note_write; simpl. apply Hcatch.
    + rewrite step_delay_other by auto. exact Hno.
    + rewrite step_delay_req_close. simpl. intros H.
      apply in_app_or in H. destruct H as [H | [H | [H | []]]];
        try discriminate; auto.
    + rewrite step_delay_conn_closed. simpl. intros H.
      apply in_app_or in H. destruct H as [H | [H | [H | []]]];
        try discriminate; auto.
    + rewrite step_delay_other by auto. exact Hno.
  - destruct (Inv_drain st i HI Ht) as [Hst Hi].
    set (a := aborted st) in Hst.
    set (lg := log st) in *. set (dc := delayCalls st) in Hst.
    clearbody a lg dc. subst st.
    assert (Hlg : ~ In LogStreamAborted
                      (if a then lg else lg ++ [LogClientDisconnected])).
    { destruct a; [exact Hno|]. intros H. apply in_app_or in H.
      destruct H as [H | [H | []]]; try discriminate; auto. }
    destruct ev.
    + rewrite step_drain_other by auto. exact Hno.
    + rewrite step_drain_drain, gen_loop_resumed.
      destruct (Nat.ltb (S i) count); [destruct a|]; exact Hno.
    + rewrite step_drain_req_close. exact Hlg.
    + rewrite step_drain_conn_closed, gen_loop_resumed.
      destruct (Nat.ltb (S i) count); exact Hlg.
    + rewrite step_drain_other by auto. exact Hno.
  - destruct HI as (Hp & Hd & HT). rewrite Ht in HT.
    destruct HT as (Hl & Htm & Hwe & Hec & Hdl & Hcl & _).
    destruct st as [[a l] r en mw rc tm tk pd lg wc dc].
    simpl in *; subst.
    destruct (done_step_log ev x a r en mw rc lg wc dc Hdl Hcl)
      as (l2 & -> & Hall).
    intros H. apply in_app_or in H. destruct H as [H | H]; [auto|].
    rewrite Forall_forall in Hall. destruct (Hall _ H); discriminate.
Qed.

(** The check of the signal in the body of the [for await] (lines 202-205)
    never fires: the generator made the same check in the same turn, just
    before it yielded (line 174).  No session leaves the loop by that
    [break] and none logs its message. *)
Theorem loop_body_abort_check_never_fires (evs : list event) :
  task_of (run evs open) <> TDone ExitLoopBreak /\
  ~ In LogStreamAborted (log (run evs open)).
Proof.
  split.
  - intros Ht. destruct (Inv_reachable evs) as (_ & _ & HT).
    rewrite Ht in HT.
    destruct HT as (_ & _ & _ & _ & _ & _ & k & _ & Hok). exact Hok.
  - assert (H : forall st, Inv st -> ~ In LogStreamAborted (log st) ->
                           ~ In LogStreamAborted (log (run evs st))).
    { induction evs as [|ev evs' IH]; intros st HI Hno; [exact Hno|].
      simpl. apply IH; [apply Inv_step, HI|].
      apply step_log_no_stream_aborted; assumption. }
    apply H; [apply Inv_open|].
    rewrite open_eq. destruct (Nat.ltb 0 count); intros [].
Qed.

(** When the transport reports the connection closed, the async function is
    over in that very turn, whatever it was waiting for: the response is
    ended, by the one call of [res.end], and nothing was written in the
    turn. *)
Theorem connection_closed_ends_the_session (evs : list event) :
  let st := run evs open in
  let st' := step st EvConnClosed in
  (exists x, task_of st' = TDone x) /\
  body (res st') = body (res st) /\
  writeCalls st' = writeCalls st /\
  writableEnded (res st') = true /\
  endCalls (res st') = 1.
Proof.
  intros st st'. subst st st'. pose proof (Inv_reachable evs) as HI.
  destruct (task_of (run evs open)) as [i | i | x] eqn:Ht.
  - destruct (Inv_delay _ i HI Ht) as [-> _].
    rewrite step_delay_conn_closed. simpl. repeat split. eexists; reflexivity.
  - destruct (Inv_drain _ i HI Ht) as [-> _].
    rewrite step_drain_conn_closed, gen_loop_resumed.
    destruct (Nat.ltb (S i) count); simpl; repeat split;
      eexists; reflexivity.
  - destruct HI as (Hp & Hd & HT). rewrite Ht in HT.
    destruct HT as (Hl & Htm & Hwe & Hec & Hdl & Hcl & _).
    destruct (done_frame _ EvConnClosed x Hp Htm Hl Hdl Hcl Ht)
      as (_ & _ & _ & F4 & _ & F6 & _ & _ & _ & _ & _ & F12 & F13 & F14 & _).
    repeat split; try congruence. exists x. exact F4.
Qed.

(** Once the response has finished, line 82 has taken the middleware's
    listener off [req]: the closing of the connection no longer touches
    the signal, and if [req] had not closed before and the signal is not
    aborted it is the handler's own listener that logs it. *)
Theorem close_after_finish_leaves_the_signal (evs : list event)
    (x : exit_path) (ev : event) :
  task_of (run evs open) = TDone x ->
  is_close ev = true ->
  let st := run evs open in
  let st' := step (step st EvFinish) ev in
  aborted st' = aborted st /\
  mwClose st' = false /\
  log st' = log st ++
            (if reqClosed st || aborted st then [] else [LogClientClosed]).
Proof.
  intros Ht Hev st st'. subst st st'.
  destruct (Inv_reachable evs) as (Hp & _ & HT). rewrite Ht in HT.
  destruct HT as (Hl & Htm & Hwe & _ & Hdl & Hcl & _).
  destruct (run evs open)
    as [[a l] [sc ct hs wh bd we ec dl cl rcl] en mw rc tm tk pd lg wc dc].
  unfold aborted; simpl in *; subst.
  destruct ev; try discriminate;
    destruct a, mw, rc, rcl; simpl;
    rewrite ?app_nil_r; repeat split; reflexivity.
Qed.

Lemma error_entries_app (a b : list log_entry) :
  error_entries (a ++ b) = error_entries a ++ error_entries b.
Proof.
  induction a as [|e a IH]; [reflexivity|].
  destruct e; simpl; rewrite IH; reflexivity.
Qed.

Lemma error_entries_close_log (l2 : list log_entry) :
  Forall (fun entry => entry = LogClientDisconnected \/
                       entry = LogClientClosed) l2 ->
  error_entries l2 = [].
Proof.
  induction 1 as [|e l2 [-> | ->] _ IH]; simpl; auto.
Qed.

Lemma step_log_tells_failure (st : session) (ev : event) :
  Inv st -> log_tells_failure st -> log_tells_failure (step st ev).
Proof.
  intros HI Hlog. unfold log_tells_failure in *.
  destruct (task_of st) as [i | i | x] eqn:Ht.
  - destruct (Inv_delay st i HI Ht) as [Hst Hi].
    set (lg := log st) in *. set (dc := delayCalls st) in Hst.
    clearbody lg dc. subst st.
    assert (Hcatch : forall e wc,
               let s := catch_handler e
                          (mkSession (AbortSignal.mk false [])
                             (running_res i false false) false true false
                             None (TDelay i) None lg wc dc) in
               match task_of s with
               | TDone (ExitFault e') => error_entries (log s) = [e']
               | _ => error_entries (log s) = []
               end).
    { intros e wc. cbv zeta. rewrite catch_handler_running.
      destruct (String.eqb (name e) "AbortError"); simpl;
        rewrite error_entries_app, Hlog; reflexivity. }
    destruct ev.
    + rewrite step_delay_timer, after_delay_ready. unfold ready_state.
      destruct (construct_fault R i); [apply Hcatch|].
      destruct (stringify_fault R i); [apply Hcatch|].
      destruct (write_result R i).
      * destruct (Nat.ltb (S i) count); exact Hlog.
      * exact Hlog.
      * unfold note_write; simpl. apply Hcatch.
    + rewrite step_delay_other by auto. exact Hlog.
    + rewrite step_delay_req_close. simpl.
      rewrite error_entries_app, Hlog. reflexivity.
    + rewrite step_delay_conn_closed. simpl.
      rewrite error_entries_app, Hlog. reflexivity.
    + rewrite step_delay_other by auto. exact Hlog.
  - destruct (Inv_drain st i HI Ht) as [Hst Hi].
    set (a := aborted st) in Hst.
    set (lg := log st) in *. set (dc := delayCalls st) in Hst.
    clearbody a lg dc. subst st.
    assert (Hlg : error_entries
                    (if a then lg else lg ++ [LogClientDisconnected]) = []).
    { destruct a; [exact Hlog|]. rewrite error_entries_app, Hlog.
      reflexivity. }
    destruct ev.
    + rewrite step_drain_other by auto. exact Hlog.
    + rewrite step_drain_drain, gen_loop_resumed.
      destruct (Nat.ltb (S i) count); [destruct a|]; exact Hlog.
    + rewrite step_drain_req_close. exact Hlg.
    + rewrite step_drain_conn_closed, gen_loop_resumed.
      destruct (Nat.ltb (S i) count); exact Hlg.
    + rewrite step_drain_other by auto. exact Hlog.
  - destruct HI as (Hp & Hd & HT). rewrite Ht in HT.
    destruct HT as (Hl & Htm & Hwe & Hec & Hdl & Hcl & _).
    destruct (done_frame st ev x Hp Htm Hl Hdl Hcl Ht)
      as (_ & _ & _ & F4 & _).
    rewrite F4.
    destruct st as [[a l] r en mw rc tm tk pd lg wc dc].
    simpl in *; subst.
    destruct (done_step_log ev x a r en mw rc lg wc dc Hdl Hcl)
      as (l2 & -> & Hall).
    rewrite error_entries_app, (error_entries_close_log l2 Hall), app_nil_r.
    exact Hlog.
Qed.

(** A streaming error is in the log exactly when the session failed, and
    then once, with the error that made it fail; a session that is
    running, completed or cancelled has none. *)
Theorem streaming_error_logged_iff_failed (evs : list event) :
  match task_of (run evs open) with
  | TDone (ExitFault e) => error_entries (log (run evs open)) = [e]
  | _ => error_entries (log (run evs open)) = []
  end.
Proof.
  assert (H : forall st, Inv st -> log_tells_failure st ->
                         log_tells_failure (run evs st)).
  { induction evs as [|ev evs' IH]; intros st HI Hl; [exact Hl|].
    simpl. apply IH; [apply Inv_step, HI|].
    apply step_log_tells_failure; assumption. }
  apply H; [apply Inv_open|].
  unfold log_tells_failure. rewrite open_eq.
  destruct (Nat.ltb 0 count); reflexivity.
Qed.

End Stream.


(** ** The scenario of three items *)



(** ** Concrete sessions *)

(** C2 after one record: the connection closes during the second delay. *)
Lemma C2_witness :
  task_of (run 1000 100 steady [EvTimer] (open 1000 100)) = TDelay 1 /\
  task_of (step 1000 100 steady
             (run 1000 100 steady [EvTimer] (open 1000 100)) EvConnClosed) =
  TDone ExitAbortError.
Proof.
  assert (Ht : task_of (run 1000 100 steady [EvTimer] (open 1000 100)) =
               TDelay 1) by (vm_compute; reflexivity).
  split; [exact Ht|].
  pose proof (C2_abort_during_delay_is_silent 1000 100 steady [EvTimer] 1
                EvConnClosed Ht eq_refl) as H.
  cbv zeta in H. destruct H as (_ & _ & _ & _ & H & _). exact H.
Defined.

(** C3 refuted as stated: the second item cannot be built after the first
    line went out, and the problem document follows that line on the
    wire. *)
Lemma C3_counterexample_problem_document_on_the_wire :
  let st := run 1000 100 faulty_second [EvTimer] (open 1000 100) in
  let st' := step 1000 100 faulty_second st EvTimer in
  record_seqs (body (res st)) = [1] /\
  headersSent (res st) = true /\
  task_of st' = TDone (ExitFault boom) /\
  problem_docs (body (res st)) = [] /\
  problem_docs (body (res st')) =
    [mkProblem "about:blank" (Some "Streaming error") 500 (Some "boom") None] /\
  body (res st') <> body (res st).
Proof.
  vm_compute. repeat split. discriminate.
Qed.

Lemma C3_witness :
  fault_at faulty_second 1 = Some boom /\
  endCalls
    (res (step 1000 100 faulty_second
            (run 1000 100 faulty_second [EvTimer] (open 1000 100)) EvTimer)) =
  1.
Proof.
  assert (Ht : task_of (run 1000 100 faulty_second [EvTimer] (open 1000 100))
               = TDelay 1) by (vm_compute; reflexivity).
  assert (Hh : headersSent
                 (res (run 1000 100 faulty_second [EvTimer] (open 1000 100)))
               = true) by (vm_compute; reflexivity).
  assert (Hf : fault_at faulty_second 1 = Some boom) by reflexivity.
  assert (Hn : name boom <> "AbortError") by discriminate.
  split; [exact Hf|].
  pose proof (C3_fault_after_first_byte_appends_problem 1000 100
                faulty_second [EvTimer] 1 boom Ht Hh Hf Hn) as H.
  cbv zeta in H. apply H.
Defined.

(** C9 when the first item cannot be built. *)
Lemma C9_witness :
  headersSent (res (run 1000 100 faulty_first [] (open 1000 100))) = false /\
  wireHead
    (res (step 1000 100 faulty_first
            (run 1000 100 faulty_first [] (open 1000 100)) EvTimer)) =
  Some (500, ProblemJson).
Proof.
  assert (Ht : task_of (run 1000 100 faulty_first [] (open 1000 100))
               = TDelay 0) by (vm_compute; reflexivity).
  assert (Hh : headersSent
                 (res (run 1000 100 faulty_first [] (open 1000 100)))
               = false) by (vm_compute; reflexivity).
  assert (Hf : fault_at faulty_first 0 = Some boom) by reflexivity.
  assert (Hn : name boom <> "AbortError") by discriminate.
  split; [exact Hh|].
  pose proof (C9_fault_before_first_byte_is_500_document 1000 100
                faulty_first [] 0 boom Ht Hh Hf Hn) as H.
  cbv zeta in H. destruct H as (_ & _ & H & _). exact H.
Defined.

(** C4 and C5 when the first line saturates the transport. *)
Lemma C4_witness :
  task_of (run 1000 100 slow_client [] (open 1000 100)) = TDelay 0 /\
  write_result slow_client 0 = Saturated /\
  writeCalls
    (run 1000 100 slow_client [EvTimer; EvConnClosed; EvTimer]
       (step 1000 100 slow_client
          (run 1000 100 slow_client [] (open 1000 100)) EvTimer)) =
  writeCalls
    (step 1000 100 slow_client
       (run 1000 100 slow_client [] (open 1000 100)) EvTimer).
Proof.
  assert (Ht : task_of (run 1000 100 slow_client [] (open 1000 100))
               = TDelay 0) by (vm_compute; reflexivity).
  assert (Hn : ~ In EvDrain [EvTimer; EvConnClosed; EvTimer]).
  { simpl. intros [H | [H | [H | []]]]; discriminate. }
  split; [exact Ht|]. split; [reflexivity|].
  pose proof (C4_no_write_until_drained 1000 100 slow_client []) as H.
  cbv zeta in H. destruct H as [H _].
  destruct (H 0 Ht eq_refl eq_refl eq_refl) as (_ & _ & Hq).
  exact (Hq [EvTimer; EvConnClosed; EvTimer] Hn).
Defined.

Lemma C5_witness :
  task_of (run 1000 100 slow_client [EvTimer] (open 1000 100)) = TDrain 0 /\
  ended
    (step 1000 100 slow_client
       (run 1000 100 slow_client [EvTimer] (open 1000 100)) EvConnClosed) =
  true.
Proof.
  assert (Ht : task_of (run 1000 100 slow_client [EvTimer] (open 1000 100))
               = TDrain 0) by (vm_compute; reflexivity).
  split; [exact Ht|].
  pose proof (C5_abandoned_wait_ends_once_without_writes 1000 100 slow_client
                [EvTimer] 0 Ht) as H.
  cbv zeta in H. destruct H as (_ & _ & H & _). exact H.
Defined.

(** C7 refuted as stated: a listener added after [abort()] stays
    registered and is never invoked, not even by another [abort()]; and
    [delay] on an aborted signal registers nothing and throws the plain
    error. *)
Lemma C7_counterexample_late_listener_never_fires :
  let r := AbortSignal.run
             [AbortSignal.Abort; AbortSignal.Add 7; AbortSignal.Abort]
             AbortSignal.fresh in
  AbortSignal.aborted (fst r) = true /\
  In 7 (AbortSignal.listeners (fst r)) /\
  count_occ Nat.eq_dec (snd r) 7 = 0 /\
  match delay 100 0 (with_sig (AbortSignal.mk true []) (open 1000 100)) with
  | DelayThrew e st => e = plainAborted /\ AbortSignal.listeners (sig st) = []
  | DelayPending _ => False
  end.
Proof.
  vm_compute. repeat split. left. reflexivity.
Qed.

Lemma C7_witness :
  AbortSignal.aborted
    (fst (AbortSignal.run [AbortSignal.Add 3] AbortSignal.fresh)) = false /\
  count_occ Nat.eq_dec
    (snd (AbortSignal.abort
            (fst (AbortSignal.run [AbortSignal.Add 3] AbortSignal.fresh))))
    3 = 1.
Proof.
  assert (Ha : AbortSignal.aborted
                 (fst (AbortSignal.run [AbortSignal.Add 3] AbortSignal.fresh))
               = false) by reflexivity.
  split; [exact Ha|].
  pose proof (C7_signal_one_way_callbacks_once 1000 100 steady
                [AbortSignal.Add 3] [] 3 [] EvTimer) as H.
  cbv zeta in H. destruct H as (_ & H & _).
  destruct (H Ha) as (_ & _ & H3). apply H3. left. reflexivity.
Defined.

(** C10 on the session that fails on its second item: the fault is the
    injected one. *)
Lemma C10_witness :
  task_of (run 1000 100 faulty_second [EvTimer; EvTimer] (open 1000 100)) =
  TDone (ExitFault boom) /\
  exists k, injected faulty_second k boom.
Proof.
  assert (Ht : task_of (run 1000 100 faulty_second [EvTimer; EvTimer]
                          (open 1000 100)) = TDone (ExitFault boom))
    by (vm_compute; reflexivity).
  split; [exact Ht|].
  destruct (C10_delay_never_called_on_aborted_signal 1000 100 faulty_second
              [EvTimer; EvTimer]) as (_ & _ & _ & H & _).
  exact (H boom Ht).
Defined.


(** * Problem documents for errors *)

(** ** The whitelist of origins *)

Lemma trim_end_idem (s : string) : trim_end (trim_end s) = trim_end s.
Proof.
  induction s as [|c s IH]; [reflexivity|]. simpl.
  destruct (is_ws c && is_empty (trim_end s)) eqn:E; [reflexivity|].
  simpl. rewrite IH, E. reflexivity.
Qed.

Lemma trim_start_shape (s : string) :
  trim_start s = EmptyString \/
  exists c s', trim_start s = String c s' /\ is_ws c = false.
Proof.
  induction s as [|c s IH]; [left; reflexivity|]. simpl.
  destruct (is_ws c) eqn:E; [exact IH|]. right. exists c, s. auto.
Qed.

Lemma trim_idem (s : string) : trim (trim s) = trim s.
Proof.
  unfold trim. destruct (trim_start_shape s) as [E | (c & s' & E & Hc)];
    rewrite E; [reflexivity|].
  simpl. rewrite Hc. simpl. rewrite Hc. simpl.
  rewrite trim_end_idem, Hc. reflexivity.
Qed.

Lemma comma_free_trim_start (s : string) :
  comma_free s = true -> comma_free (trim_start s) = true.
Proof.
  induction s as [|c s IH]; [auto|]. intros H. simpl.
  destruct (is_ws c); [|exact H].
  simpl in H. apply andb_true_iff in H. apply IH, H.
Qed.

Lemma comma_free_trim_end (s : string) :
  comma_free s = true -> comma_free (trim_end s) = true.
Proof.
  induction s as [|c s IH]; [auto|]. intros H. simpl in *.
  apply andb_true_iff in H. destruct H as [Hc Hs].
  destruct (is_ws c && is_empty (trim_end s)); [reflexivity|].
  simpl. rewrite Hc, (IH Hs). reflexivity.
Qed.

Lemma split_on_pieces (s : string) :
  split_on comma s <> [] /\
  Forall (fun p => comma_free p = true) (split_on comma s).
Proof.
  induction s as [|c s [Hne Hall]]; simpl.
  - split; [discriminate | repeat constructor].
  - destruct (Ascii.eqb c comma) eqn:E.
    + split; [discriminate|]. constructor; [reflexivity | exact Hall].
    + destruct (split_on comma s) as [|h t]; [contradiction|].
      split; [discriminate|].
      inversion Hall; subst. constructor; [|assumption].
      simpl. rewrite E. simpl. assumption.
Qed.

Lemma split_on_comma_free (s : string) :
  comma_free s = true -> split_on comma s = [s].
Proof.
  induction s as [|c s IH]; [reflexivity|]. simpl. intros H.
  apply andb_true_iff in H. destruct H as [Hc Hs].
  apply negb_true_iff in Hc. rewrite Hc, (IH Hs). reflexivity.
Qed.

Lemma split_on_append (s rest : string) :
  comma_free s = true ->
  split_on comma (String.append s (String comma rest)) =
  s :: split_on comma rest.
Proof.
  induction s as [|c s IH]; simpl; intros H.
  - reflexivity.
  - apply andb_true_iff in H. destruct H as [Hc Hs].
    apply negb_true_iff in Hc. rewrite Hc, (IH Hs). reflexivity.
Qed.

(** [split] undoes [join] when no piece holds the separator. *)
Lemma split_on_concat (l : list string) :
  l <> [] -> Forall (fun p => comma_free p = true) l ->
  split_on comma (String.concat "," l) = l.
Proof.
  induction l as [|x l IH]; [congruence|]. intros _ Hall.
  inversion Hall as [|x' l' Hx Hl]; subst.
  destruct l as [|y l].
  - simpl. apply split_on_comma_free, Hx.
  - change (String.concat "," (x :: y :: l))
      with (String.append x (String comma (String.concat "," (y :: l)))).
    rewrite split_on_append by exact Hx.
    rewrite IH; [reflexivity | discriminate | exact Hl].
Qed.

Lemma is_ws_not_comma (c : Ascii.ascii) :
  is_ws c = true -> Ascii.eqb c comma = false.
Proof.
  intros H. destruct (Ascii.eqb c comma) eqn:E; [|reflexivity].
  apply Ascii.eqb_eq in E. subst c. discriminate H.
Qed.

Lemma all_ws_comma_free (w : string) : all_ws w = true -> comma_free w = true.
Proof.
  induction w as [|c w IH]; [auto|]. simpl. intros H.
  apply andb_true_iff in H. destruct H as [Hc Hw].
  rewrite (is_ws_not_comma c Hc), (IH Hw). reflexivity.
Qed.

Lemma comma_free_append (a b : string) :
  comma_free a = true -> comma_free b = true ->
  comma_free (String.append a b) = true.
Proof.
  induction a as [|c a IH]; simpl; intros Ha Hb; [exact Hb|].
  apply andb_true_iff in Ha. destruct Ha as [Hc Ha].
  rewrite Hc, (IH Ha Hb). reflexivity.
Qed.

Lemma trim_start_ws_append (w s : string) :
  all_ws w = true -> trim_start (String.append w s) = trim_start s.
Proof.
  induction w as [|c w IH]; simpl; intros H; [reflexivity|].
  apply andb_true_iff in H. destruct H as [Hc Hw]. rewrite Hc. apply IH, Hw.
Qed.

Lemma trim_end_all_ws (w : string) : all_ws w = true -> trim_end w = EmptyString.
Proof.
  induction w as [|c w IH]; simpl; intros H; [reflexivity|].
  apply andb_true_iff in H. destruct H as [Hc Hw].
  rewrite (IH Hw), Hc. reflexivity.
Qed.

Lemma trim_end_append_ws (s w : string) :
  all_ws w = true -> trim_end (String.append s w) = trim_end s.
Proof.
  intros Hw. induction s as [|c s IH]; simpl.
  - apply trim_end_all_ws, Hw.
  - rewrite IH. reflexivity.
Qed.

Lemma trim_start_clean (e : string) : trim e = e -> trim_start e = e.
Proof.
  intros H. destruct e as [|c e]; [reflexivity|].
  simpl. destruct (is_ws c) eqn:Hc; [|reflexivity].
  exfalso. unfold trim in H.
  destruct (trim_start_shape (String c e)) as [E | (c' & s' & E & Hc')].
  - rewrite E in H. discriminate H.
  - rewrite E in H. simpl in H. rewrite Hc' in H. simpl in H.
    inversion H; subst. congruence.
Qed.

Lemma trim_padded (p : padded) : well_padded p -> trim (padded_text p) = entry p.
Proof.
  intros (Hl & Hr & Hne & He & _). unfold trim, padded_text.
  rewrite trim_start_ws_append by exact Hl.
  pose proof (trim_start_clean _ He) as Hs.
  destruct (trim_start_shape (entry p)) as [E | (c & s' & E & Hc)];
    rewrite Hs in E; [contradiction|].
  rewrite E. simpl. rewrite Hc.
  change (String c (String.append s' (pad_right p)))
    with (String.append (String c s') (pad_right p)).
  rewrite trim_end_append_ws by exact Hr.
  rewrite <- E. unfold trim in He. rewrite Hs in He. exact He.
Qed.

Lemma comma_free_padded (p : padded) :
  well_padded p -> comma_free (padded_text p) = true.
Proof.
  intros (Hl & Hr & _ & _ & Hc). unfold padded_text.
  apply comma_free_append; [apply all_ws_comma_free, Hl|].
  apply comma_free_append; [exact Hc | apply all_ws_comma_free, Hr].
Qed.

Lemma concat_nonempty (l : list string) (x : string) :
  x <> EmptyString -> String.concat "," (x :: l) <> EmptyString.
Proof.
  intros Hx. destruct x as [|c x]; [congruence|].
  destruct l; simpl; discriminate.
Qed.

(** Every entry of the whitelist is a non-empty string without a comma
    and without white space at either end, whatever the environment
    variable holds. *)
Theorem whitelist_entries_are_clean (env : option string) (dflt e : string) :
  In e (parse_whitelist env dflt) -> clean_entry e.
Proof.
  unfold parse_whitelist. intros H. apply filter_In in H.
  destruct H as [Hin Hne]. apply in_map_iff in Hin.
  destruct Hin as (piece & <- & Hp). repeat split.
  - intros E. rewrite E in Hne. discriminate.
  - apply trim_idem.
  - unfold trim. apply comma_free_trim_end, comma_free_trim_start.
    destruct (split_on_pieces
                match env with
                | Some v => if truthy env then v else dflt
                | None => dflt
                end) as [_ Hall].
    rewrite Forall_forall in Hall. apply Hall, Hp.
Qed.

(** A whitelist written as entries joined by commas, with any white space
    around them, is read back as those entries, in order. *)
Theorem whitelist_reads_back_padded_entries (l : list padded)
    (dflt : string) :
  l <> [] ->
  Forall well_padded l ->
  parse_whitelist (Some (String.concat "," (map padded_text l))) dflt =
  map entry l.
Proof.
  intros Hne Hall. unfold parse_whitelist.
  assert (Htruthy : truthy (Some (String.concat "," (map padded_text l)))
                    = true).
  { destruct l as [|p l]; [congruence|]. inversion Hall; subst.
    assert (Hp : padded_text p <> EmptyString).
    { intros E. pose proof (trim_padded p H1) as Ht. rewrite E in Ht.
      destruct H1 as (_ & _ & Hn & _). apply Hn. rewrite <- Ht. reflexivity. }
    pose proof (concat_nonempty (map padded_text l) _ Hp) as Hc.
    simpl map. destruct (String.concat "," (padded_text p :: map padded_text l));
      [congruence | reflexivity]. }
  rewrite Htruthy.
  rewrite split_on_concat.
  - clear Hne Htruthy. induction Hall as [|p l Hp Hl IH]; [reflexivity|].
    simpl. rewrite (trim_padded p Hp).
    destruct Hp as (_ & _ & Hn & _).
    destruct (entry p) eqn:E; [congruence|]. simpl. rewrite IH. reflexivity.
  - destruct l; [congruence | discriminate].
  - apply Forall_map. eapply Forall_impl; [|exact Hall].
    intros p Hp. apply comma_free_padded, Hp.
Qed.

Lemma whitelist_reads_back_witness :
  parse_whitelist (Some " http://a.example,http://b.example  ")
    "http://localhost:3000" =
  ["http://a.example"; "http://b.example"].
Proof.
  apply (whitelist_reads_back_padded_entries
           [mkPadded " " "http://a.example" EmptyString;
            mkPadded EmptyString "http://b.example" "  "]
           "http://localhost:3000").
  - discriminate.
  - repeat constructor; try discriminate.
Defined.

Lemma whitelist_entries_witness :
  In "http://a.example"
    (parse_whitelist (Some " http://a.example , ,http://b.example")
       "http://localhost:3000") /\
  clean_entry "http://a.example".
Proof.
  assert (Hin : In "http://a.example"
                  (parse_whitelist (Some " http://a.example , ,http://b.example")
                     "http://localhost:3000"))
    by (vm_compute; left; reflexivity).
  split; [exact Hin|].
  exact (whitelist_entries_are_clean _ _ _ Hin).
Defined.

(** ** The error handlers *)



(** Every answer of the handler is a problem document sent as
    [application/problem+json] with a status from 100 to 999 that is the
    status written in the document, unless the document came attached to
    the error without one; a document the handler builds itself has a
    title, and names the request unless it is the document of line 154. *)
Theorem error_handler_status_matches_document (originalUrl : string)
    (err : app_error) (status : nat) (ct : string) (doc : problem_doc) :
  errorHandler false originalUrl err = Replied status ct doc ->
  ct = "application/problem+json" /\
  100 <= status <= 999 /\
  (p_status (core doc) = status \/
   (p_status (core doc) = 0 /\ err_problem err = Some doc)) /\
  (err_problem err = Some doc \/
   (truthy (p_title (core doc)) = true /\
    (p_instance (core doc) = Some originalUrl \/ doc = fallback_doc))).
Proof.
  unfold errorHandler, errorHandler_try, send_problem. intros H.
  assert (Hvalid : forall n, valid_status n = true -> 100 <= n <= 999).
  { intros n Hn. unfold valid_status in Hn. apply andb_true_iff in Hn.
    destruct Hn as [H1 H2]. apply Nat.leb_le in H1. apply Nat.leb_le in H2.
    lia. }
  assert (Hfb : ct = "application/problem+json" -> status = 500 ->
                doc = fallback_doc ->
                ct = "application/problem+json" /\
                100 <= status <= 999 /\
                (p_status (core doc) = status \/
                 (p_status (core doc) = 0 /\ err_problem err = Some doc)) /\
                (err_problem err = Some doc \/
                 (truthy (p_title (core doc)) = true /\
                  (p_instance (core doc) = Some originalUrl \/
                   doc = fallback_doc)))).
  { intros -> -> ->. split; [reflexivity|]. split; [lia|].
    split; [left; reflexivity|]. right. split; [reflexivity|]. right.
    reflexivity. }
  destruct (isJsonParseError err).
  { injection H as <- <- <-. split; [reflexivity|]. split; [lia|].
    split; [left; reflexivity|]. right. split; [reflexivity|]. left.
    reflexivity. }
  destruct (match err_message err with
            | Some m => String.eqb m "CORS origin not allowed"
            | None => false
            end).
  { injection H as <- <- <-. split; [reflexivity|]. split; [lia|].
    split; [left; reflexivity|]. right. split; [reflexivity|]. left.
    reflexivity. }
  destruct (err_problem err) as [p|].
  - destruct (valid_status
                match p_status (core p) with
                | 0 => status_of err
                | S n => S n
                end) eqn:Hv.
    + injection H as <- <- <-. split; [reflexivity|].
      split; [apply Hvalid, Hv|].
      destruct (p_status (core p)) eqn:E; auto.
    + injection H as <- <- <-. apply Hfb; reflexivity.
  - destruct (valid_status (status_of err)) eqn:Hv.
    + injection H as <- <- <-. split; [reflexivity|].
      split; [apply Hvalid, Hv|]. split; [left; reflexivity|].
      right. split; [|left; reflexivity].
      unfold buildProblem, js_or. cbn [core p_title].
      destruct (truthy (err_name err)) eqn:E; cbn; rewrite ?E; reflexivity.
    + injection H as <- <- <-. apply Hfb; reflexivity.
Qed.

Lemma error_handler_status_witness :
  errorHandler false "/order/7"
    (mkAppError (Some "NotFound") (Some "no such order") (Some 404) false
       false None) =
  Replied 404 problem_json_type
    (mkDoc (buildProblem None (Some "NotFound") (Some 404)
              (Some "no such order") (Some "/order/7")) None) /\
  100 <= 404 <= 999.
Proof.
  split; [reflexivity|].
  apply (error_handler_status_matches_document "/order/7"
           (mkAppError (Some "NotFound") (Some "no such order") (Some 404)
              false false None)
           404 problem_json_type
           (mkDoc (buildProblem None (Some "NotFound") (Some 404)
                     (Some "no such order") (Some "/order/7")) None)
           eq_refl).
Defined.

(** [POST /order]: a body that passes validation makes an order, answered
    201, with empty notes turned to [null]; a body that fails is answered
    400 with the validation document, which lists every error of the
    validator and sums them up in its detail. *)
Theorem order_route_answers (v : validation) (originalUrl uuid now : string)
    (b : order_body) :
  match v with
  | Valid =>
      order_route v originalUrl uuid now b =
      OrderCreated 201
        (mkOrder uuid (b_itemId b) (b_quantity b)
           (match b_notes b with
            | Some EmptyString => None
            | n => n
            end) now)
  | Invalid errs =>
      let l := match errs with Some l => l | None => [] end in
      order_route v originalUrl uuid now b =
      OrderRefused
        (Replied 400 "application/problem+json"
           (mkDoc (mkProblem "https://example.com/probs/invalid-request"
                     (Some "Request validation failed") 400
                     (Some (String.concat "; " (map describe_error l)))
                     (Some originalUrl))
              (Some l)))
  end.
Proof.
  destruct v as [|errs].
  - unfold order_route. simpl. destruct (b_notes b) as [[|c n]|]; reflexivity.
  - reflexivity.
Qed.

(** The origin check lets a request through exactly when it has no origin
    or its origin is on the whitelist, letter for letter; the error it
    raises otherwise is answered 403 with the CORS document, whatever else
    the handler could have made of it. *)
Theorem cors_rejection_is_403 (whitelist : list string)
    (origin : option string) (originalUrl : string) :
  (cors_origin whitelist origin = None <->
   truthy origin = false \/ exists o, origin = Some o /\ In o whitelist) /\
  forall err,
    cors_origin whitelist origin = Some err ->
    errorHandler false originalUrl err =
    Replied 403 "application/problem+json"
      (mkDoc (mkProblem "https://example.com/probs/cors"
                (Some "CORS origin not allowed") 403
                (Some "The requesting origin is not allowed by server CORS policy.")
                (Some originalUrl))
         None).
Proof.
  unfold cors_origin. split.
  - destruct origin as [o|]; [|split; auto].
    destruct (truthy (Some o)) eqn:Ht; simpl.
    + destruct (existsb (String.eqb o) whitelist) eqn:Hex.
      * split; [|reflexivity]. intros _. right. exists o. split; [reflexivity|].
        apply existsb_exists in Hex. destruct Hex as (x & Hin & Hx).
        apply String.eqb_eq in Hx. subst x. exact Hin.
      * split; [discriminate|]. intros [H | (o' & Ho & Hin)]; [discriminate|].
        inversion Ho; subst o'.
        assert (existsb (String.eqb o) whitelist = true).
        { apply existsb_exists. exists o. split; [exact Hin|].
          apply String.eqb_refl. }
        congruence.
    + split; auto.
  - intros err H. destruct origin as [o|]; [|discriminate].
    destruct (negb (truthy (Some o))); [discriminate|].
    destruct (existsb (String.eqb o) whitelist); [discriminate|].
    inversion H; subst. reflexivity.
Qed.

Lemma cors_rejection_witness :
  cors_origin ["http://localhost:5173"; "http://localhost:3000"]
    (Some "http://evil.example") <> None.
Proof.
  intros H.
  destruct (cors_rejection_is_403
              ["http://localhost:5173"; "http://localhost:3000"]
              (Some "http://evil.example") "/ping") as [[Hl _] _].
  destruct (Hl H) as [Ht | (o & Ho & Hin)]; [discriminate|].
  inversion Ho; subst o. simpl in Hin.
  destruct Hin as [Hin | [Hin | []]]; discriminate.
Defined.

(** In the content-negotiation service the same rejected origin is
    answered 500: its error handler knows no CORS case, the error carries
    no status, and its message becomes the title. *)
Theorem cors_rejection_is_500_in_negotiation_service
    (whitelist : list string) (origin : option string)
    (originalUrl : string) (err : app_error) :
  cors_origin whitelist origin = Some err ->
  errorHandler_negotiation originalUrl err =
  Replied 500 "application/problem+json"
    (mkDoc (mkProblem "about:blank" (Some "CORS origin not allowed") 500 None
              (Some originalUrl))
       None).
Proof.
  unfold cors_origin. intros H. destruct origin as [o|]; [|discriminate].
  destruct (negb (truthy (Some o))); [discriminate|].
  destruct (existsb (String.eqb o) whitelist); [discriminate|].
  inversion H; subst. reflexivity.
Qed.

Lemma cors_rejection_negotiation_witness :
  errorHandler_negotiation "/user/1"
    (mkAppError (Some "Error") (Some "CORS origin not allowed") None false
       false None) =
  Replied 500 "application/problem+json"
    (mkDoc (mkProblem "about:blank" (Some "CORS origin not allowed") 500 None
              (Some "/user/1"))
       None).
Proof.
  apply (cors_rejection_is_500_in_negotiation_service
           ["http://localhost:3000"] (Some "http://evil.example")).
  reflexivity.
Defined.

(** ** Concrete sessions, continued *)

Lemma stream_runs_to_completion_witness :
  fault_free slow_client /\
  record_seqs (body (res (drive 5 100 slow_client (2 * 5) (open 5 100)))) =
  [1; 2; 3; 4; 5].
Proof.
  assert (Hf : fault_free slow_client).
  { intros i. unfold fault_at. simpl. destruct (Nat.eqb i 0); reflexivity. }
  split; [exact Hf|].
  pose proof (stream_runs_to_completion 5 100 slow_client Hf) as H.
  cbv zeta in H. destruct H as (_ & H & _). exact H.
Defined.

Lemma fault_named_AbortError_witness :
  fault_at throws_abort_named 1 = Some abort_named /\
  task_of
    (step 1000 100 throws_abort_named
       (run 1000 100 throws_abort_named [EvTimer] (open 1000 100)) EvTimer) =
  TDone ExitAbortError.
Proof.
  assert (Ht : task_of (run 1000 100 throws_abort_named [EvTimer]
                          (open 1000 100)) = TDelay 1)
    by (vm_compute; reflexivity).
  assert (Hf : fault_at throws_abort_named 1 = Some abort_named)
    by reflexivity.
  split; [exact Hf|].
  pose proof (fault_named_AbortError_ends_silently 1000 100
                throws_abort_named [EvTimer] 1 abort_named Ht Hf eq_refl)
    as H.
  cbv zeta in H. destruct H as (H & _). exact H.
Defined.

Lemma backpressure_wait_witness :
  task_of (run 1000 100 slow_client [EvTimer] (open 1000 100)) = TDrain 0 /\
  aborted
    (run 1000 100 slow_client [EvTimer; EvReqClose; EvFinish]
       (run 1000 100 slow_client [EvTimer] (open 1000 100))) = true.
Proof.
  assert (Ht : task_of (run 1000 100 slow_client [EvTimer] (open 1000 100))
               = TDrain 0) by (vm_compute; reflexivity).
  assert (Hall : Forall (fun ev => ev <> EvDrain /\ ev <> EvConnClosed)
                   [EvTimer; EvReqClose; EvFinish]).
  { repeat constructor; discriminate. }
  split; [exact Ht|].
  pose proof (backpressure_wait_ignores_the_signal 1000 100 slow_client
                [EvTimer] [EvTimer; EvReqClose; EvFinish] 0 Ht Hall) as H.
  cbv zeta in H. destruct H as (_ & _ & _ & _ & H).
  apply H. right. left. reflexivity.
Defined.

Lemma close_after_finish_witness :
  task_of (run 1 100 steady [EvTimer] (open 1 100)) = TDone ExitExhausted /\
  aborted
    (step 1 100 steady
       (step 1 100 steady (run 1 100 steady [EvTimer] (open 1 100)) EvFinish)
       EvConnClosed) = false.
Proof.
  assert (Ht : task_of (run 1 100 steady [EvTimer] (open 1 100)) =
               TDone ExitExhausted) by (vm_compute; reflexivity).
  split; [exact Ht|].
  pose proof (close_after_finish_leaves_the_signal 1 100 steady [EvTimer]
                ExitExhausted EvConnClosed Ht eq_refl) as H.
  cbv zeta in H. destruct H as (H & _). rewrite H. vm_compute. reflexivity.
Defined.
